(** * Diffie-Hellman simulator (app.js): number-theoretic core and stepper

    A shallow embedding of the functions of [src/app.js] and the
    properties the specification states about them.

    - BigInt values are [Z]; [%] and [/] on BigInt truncate towards zero
      ([Z.rem], [Z.quot]) and throw a RangeError on a zero divisor;
      [&] and [>>] are [Z.land] and [Z.shiftr].
    - A computation either returns, throws the RangeError, or is cut off
      by the iteration budget given to an unbounded loop ([res]).
    - The page's mutable variables and the four input fields form the
      record [Session.t]; the functions that mutate them pass it along. *)

From Stdlib Require Import ZArith Znumtheory Zpow_facts Lia String Ascii.
From Stdlib Require Strings.Byte.
From mathcomp Require Import ssreflect ssrfun ssrbool eqtype ssrnat seq div.
From mathcomp Require Import choice fintype prime finset fingroup ssralg.
From mathcomp Require Import finalg zmodp cyclic.

Set Implicit Arguments.
Unset Strict Implicit.
Unset Printing Implicit Defensive.

Local Open Scope Z_scope.

(** ** Outcomes of a computation *)

Module Res.

Inductive res (A : Type) : Type :=
| Ret (a : A)     (* normal completion *)
| RangeError      (* BigInt division by zero *)
| OutOfFuel.      (* an unbounded loop used up its iteration budget *)

Arguments Ret {A} a.
Arguments RangeError {A}.
Arguments OutOfFuel {A}.

Definition bind {A B : Type} (m : res A) (k : A -> res B) : res B :=
  match m with
  | Ret a => k a
  | RangeError => RangeError
  | OutOfFuel => OutOfFuel
  end.

End Res.

Import Res.

Notation "x <- m ;; k" := (bind m (fun x => k))
  (at level 61, m at next level, right associativity).
Notation "' pat <- m ;; k" := (bind m (fun x => match x with pat => k end))
  (at level 61, pat pattern, m at next level, right associativity).

(** ** BigInt primitives *)

(** [x % y] on BigInt. *)
Definition brem (x y : Z) : res Z :=
  if y =? 0 then RangeError else Ret (Z.rem x y).

(** [x / y] on BigInt. *)
Definition bquot (x y : Z) : res Z :=
  if y =? 0 then RangeError else Ret (Z.quot x y).

(** A BigInt used as a condition: every value but [0n] is truthy. *)
Definition truthy (x : Z) : bool := negb (x =? 0).

(** Iterations a loop that halves a positive [e] until it is [0] can make:
    the number of binary digits of [e]. *)
Definition bits (e : Z) : nat := S (Z.to_nat (Z.log2 e)).

(** ** modPow (app.js, lines 51-62) *)

(** The [while (e > 0n)] loop; [result], [b] and [e] are its variables. *)
Fixpoint modPow_loop (fuel : nat) (result b e md : Z) : res Z :=
  if e >? 0 then
    match fuel with
    | O => OutOfFuel
    | S fuel' =>
        result' <- (if truthy (Z.land e 1) then brem (result * b) md
                    else Ret result) ;;
        let e' := Z.shiftr e 1 in
        b' <- brem (b * b) md ;;
        modPow_loop fuel' result' b' e' md
    end
  else Ret result.

Definition modPow (base exp md : Z) : res Z :=
  if md =? 1 then Ret 0
  else
    r <- brem base md ;;
    b <- brem (r + md) md ;;
    modPow_loop (bits exp) 1 b exp md.

(** ** isProbablePrime (app.js, lines 65-94) *)

Definition smallPrimes : seq Z :=
  [:: 2; 3; 5; 7; 11; 13; 17; 19; 23; 29; 31; 37].

(** [for (const p of smallPrimes)]: [Some r] when the loop body returned
    [r], [None] when the loop ran to its end. *)
Fixpoint smallPrimes_loop (n : Z) (ps : seq Z) : res (option bool) :=
  match ps with
  | [::] => Ret None
  | p :: ps' =>
      if n =? p then Ret (Some true)
      else
        r <- brem n p ;;
        if r =? 0 then Ret (Some (n =? p)) else smallPrimes_loop n ps'
  end.

(** [while ((d & 1n) === 0n) { d >>= 1n; s++; }] *)
Fixpoint split_loop (fuel : nat) (d s : Z) : res (Z * Z) :=
  if Z.land d 1 =? 0 then
    match fuel with
    | O => OutOfFuel
    | S fuel' => split_loop fuel' (Z.shiftr d 1) (s + 1)
    end
  else Ret (d, s).

(** [for (let r = 1n; r < s; r++)] of [check]. *)
Fixpoint check_loop (fuel : nat) (r s x n : Z) : res bool :=
  if r <? s then
    match fuel with
    | O => OutOfFuel
    | S fuel' =>
        x' <- brem (x * x) n ;;
        if x' =? n - 1 then Ret true
        else check_loop fuel' (r + 1) s x' n
    end
  else Ret false.

(** The inner function [check(a)]; [n], [d] and [s] are the variables of
    [isProbablePrime] it closes over. *)
Definition check (n d s a : Z) : res bool :=
  r <- brem a n ;;
  if r =? 0 then Ret true
  else
    x <- modPow a d n ;;
    if (x =? 1) || (x =? n - 1) then Ret true
    else check_loop (Z.to_nat s) 1 s x n.

Definition bases : seq Z := [:: 2; 3; 5; 7; 11; 13; 17].

(** [for (const a of bases) { if (!check(a)) return false; } return true] *)
Fixpoint bases_loop (n d s : Z) (bs : seq Z) : res bool :=
  match bs with
  | [::] => Ret true
  | a :: bs' =>
      ok <- check n d s a ;;
      if ok then bases_loop n d s bs' else Ret false
  end.

Definition isProbablePrime (n : Z) : res bool :=
  if n <? 2 then Ret false
  else
    early <- smallPrimes_loop n smallPrimes ;;
    match early with
    | Some r => Ret r
    | None =>
        ' (d, s) <- split_loop (bits (n - 1)) (n - 1) 0 ;;
        bases_loop n d s bases
    end.

(** ** The secure byte source

    [crypto.getRandomValues] is an unending supply of bytes: [rnd i] is
    the [i]-th byte it ever delivers and a cursor counts the bytes drawn
    so far.  A loop that redraws until a draw is accepted gets a budget
    of draws. *)

Definition entropy : Type := nat -> Byte.byte.

Definition byte_value (b : Byte.byte) : Z := Z.of_N (Byte.to_N b).

(** [crypto.getRandomValues(bytes)] for an array of [byteLen] bytes. *)
Definition getRandomValues (rnd : entropy) (pos byteLen : nat) : seq Byte.byte :=
  [seq rnd (pos + i)%nat | i <- iota 0 byteLen].

(** [for (i = 0; i < byteLen; i++) val = (val << 8n) + BigInt(bytes[i])] *)
Fixpoint assemble (bytes : seq Byte.byte) (val : Z) : Z :=
  match bytes with
  | [::] => val
  | b :: bytes' => assemble bytes' (Z.shiftl val 8 + byte_value b)
  end.

(** ** randomBigIntBelow (app.js, lines 97-110) *)

(** [while (true)]: draw, assemble, mask, accept or redraw. *)
Fixpoint draw_loop (fuel : nat) (maxExclusive mask : Z) (byteLen : nat)
    (rnd : entropy) (pos : nat) : res (Z * nat) :=
  match fuel with
  | O => OutOfFuel
  | S fuel' =>
      let bytes := getRandomValues rnd pos byteLen in
      let val := Z.land (assemble bytes 0) mask in
      if val <? maxExclusive then Ret (val, (pos + byteLen)%nat)
      else draw_loop fuel' maxExclusive mask byteLen rnd (pos + byteLen)%nat
  end.

(** [maxExclusive.toString(2).length] of a positive BigInt. *)
Definition bitLength (x : Z) : Z := Z.log2 x + 1.

Definition randomBigIntBelow (fuel : nat) (maxExclusive : Z)
    (rnd : entropy) (pos : nat) : res (Z * nat) :=
  if maxExclusive <=? 0 then Ret (0, pos)
  else
    let bitLen := bitLength maxExclusive in
    let byteLen := Z.to_nat ((bitLen + 7) / 8) in   (* Math.ceil(bitLen / 8) *)
    let mask := Z.shiftl 1 bitLen - 1 in
    draw_loop fuel maxExclusive mask byteLen rnd pos.

(** ** randomBigIntInRange (app.js, lines 113-118) *)

Definition randomBigIntInRange (fuel : nat) (min max : Z)
    (rnd : entropy) (pos : nat) : res (Z * nat) :=
  let '(min, max) := if max <? min then (max, min) else (min, max) in
  let span := (max - min) + 1 in
  ' (off, pos') <- randomBigIntBelow fuel span rnd pos ;;
  Ret (min + off, pos').

(** ** randomPrimeInRange (app.js, lines 121-146)

    [limit] and [tries] are JavaScript numbers; they are integers here,
    which is exact as long as [limit] stays below [2^53]. *)

(** [while (tries < limit)]: [Some c] when the body returned [c]. *)
Fixpoint scan_loop (fuel : nat) (tries limit candidate minP maxP : Z)
  : res (option Z) :=
  if tries <? limit then
    match fuel with
    | O => OutOfFuel
    | S fuel' =>
        pr <- isProbablePrime candidate ;;
        if pr then Ret (Some candidate)
        else
          let candidate := candidate + 2 in
          let candidate := if candidate >? maxP then minP else candidate in
          scan_loop fuel' (tries + 1) limit candidate minP maxP
    end
  else Ret None.

(** [for (let n = minP; n <= maxP; n += 2n)] *)
Fixpoint fallback_scan (fuel : nat) (n maxP : Z) : res (option Z) :=
  if n <=? maxP then
    match fuel with
    | O => OutOfFuel
    | S fuel' =>
        pr <- isProbablePrime n ;;
        if pr then Ret (Some n) else fallback_scan fuel' (n + 2) maxP
    end
  else Ret None.

(** The first five statements: the bounds the search really uses. *)
Definition normalizeRange (minP maxP : Z) : Z * Z :=
  let maxP := if maxP <? 5 then 5 else maxP in
  let minP := if minP <? 5 then 5 else minP in
  let minP := if Z.land minP 1 =? 0 then minP + 1 else minP in
  let maxP := if Z.land maxP 1 =? 0 then maxP - 1 else maxP in
  if minP >? maxP then (maxP, minP) else (minP, maxP).

Definition randomPrimeInRange (fuel : nat) (minP maxP : Z)
    (rnd : entropy) (pos : nat) : res (Z * nat) :=
  let '(minP, maxP) := normalizeRange minP maxP in
  ' (candidate, pos') <- randomBigIntInRange fuel minP maxP rnd pos ;;
  let candidate := if Z.land candidate 1 =? 0 then candidate + 1 else candidate in
  half <- bquot (maxP - minP) 2 ;;
  let limit := half + 2 in
  found <- scan_loop (Z.to_nat limit) 0 limit candidate minP maxP ;;
  match found with
  | Some c => Ret (c, pos')
  | None =>
      found <- fallback_scan (Z.to_nat limit) minP maxP ;;
      match found with
      | Some n => Ret (n, pos')
      | None => Ret (101, pos')
      end
  end.

(** ** primeFactorsDistinct (app.js, lines 149-160) *)

(** [out.includes(x)] and [out.push(x)] on an array of BigInt. *)
Definition includes (out : seq Z) (x : Z) : bool := has (Z.eqb x) out.
Definition push (out : seq Z) (x : Z) : seq Z := rcons out x.

(** [while (x % 2n === 0n) { if (!out.includes(2n)) out.push(2n); x /= 2n; }] *)
Fixpoint twos_loop (fuel : nat) (out : seq Z) (x : Z) : res (seq Z * Z) :=
  r <- brem x 2 ;;
  if r =? 0 then
    match fuel with
    | O => OutOfFuel
    | S fuel' =>
        let out := if includes out 2 then out else push out 2 in
        x' <- bquot x 2 ;;
        twos_loop fuel' out x'
    end
  else Ret (out, x).

(** [while (f * f <= x)] *)
Fixpoint odd_loop (fuel : nat) (out : seq Z) (x f : Z) : res (seq Z * Z) :=
  if f * f <=? x then
    match fuel with
    | O => OutOfFuel
    | S fuel' =>
        r <- brem x f ;;
        if r =? 0 then
          let out := if includes out f then out else push out f in
          x' <- bquot x f ;;
          odd_loop fuel' out x' f
        else odd_loop fuel' out x (f + 2)
    end
  else Ret (out, x).

Definition primeFactorsDistinct (n : Z) : res (seq Z) :=
  ' (out, x) <- twos_loop (bits (Z.abs n)) [::] n ;;
  ' (out, x) <- odd_loop (Z.to_nat x) out x 3 ;;
  Ret (if x >? 1 then (if includes out x then out else push out x) else out).

(** ** findGenerator (app.js, lines 163-183) *)

(** [let ok = true; for (const q of factors) { if (modPow(gCand, phi / q, p)
    === 1n) { ok = false; break; } }]: the final value of [ok]. *)
Fixpoint orderTest (p phi gCand : Z) (factors : seq Z) : res bool :=
  match factors with
  | [::] => Ret true
  | q :: factors' =>
      e <- bquot phi q ;;
      x <- modPow gCand e p ;;
      if x =? 1 then Ret false else orderTest p phi gCand factors'
  end.

(** [for (let attempt = 0; attempt < 64; attempt++)], [attempts] rounds
    left: [Some g] when the body returned [g]. *)
Fixpoint attempt_loop (attempts fuel : nat) (p phi : Z) (factors : seq Z)
    (rnd : entropy) (pos : nat) : res (option Z * nat) :=
  match attempts with
  | O => Ret (None, pos)
  | S attempts' =>
      ' (gCand, pos') <- randomBigIntInRange fuel 2 (p - 2) rnd pos ;;
      ok <- orderTest p phi gCand factors ;;
      if ok then Ret (Some gCand, pos')
      else attempt_loop attempts' fuel p phi factors rnd pos'
  end.

(** [for (let gCand = 2n; gCand <= p - 2n; gCand++)] *)
Fixpoint linear_search (fuel : nat) (gCand p phi : Z) (factors : seq Z)
  : res (option Z) :=
  if gCand <=? p - 2 then
    match fuel with
    | O => OutOfFuel
    | S fuel' =>
        ok <- orderTest p phi gCand factors ;;
        if ok then Ret (Some gCand)
        else linear_search fuel' (gCand + 1) p phi factors
    end
  else Ret None.

Definition findGenerator (fuel : nat) (p : Z) (rnd : entropy) (pos : nat)
  : res (Z * nat) :=
  let phi := p - 1 in
  factors <- primeFactorsDistinct phi ;;
  ' (found, pos') <- attempt_loop 64 fuel p phi factors rnd pos ;;
  match found with
  | Some g => Ret (g, pos')
  | None =>
      found <- linear_search (Z.to_nat p) 2 p phi factors ;;
      match found with
      | Some g => Ret (g, pos')
      | None => Ret (2, pos')   (* last resort *)
      end
  end.

(** ** parseBigIntDec (app.js, lines 39-48)

    The text of an input field is a [string] whose characters are code
    units below 256. *)

(** White space removed by [trim()] among those code units: tab, line
    feed, vertical tab, form feed, carriage return, space, no-break space. *)
Definition isWhiteSpace (c : ascii) : bool :=
  let n := nat_of_ascii c in
  ((9 <= n) && (n <= 13))%nat || (n == 32)%nat || (n == 160)%nat.

Fixpoint trimStart (s : string) : string :=
  match s with
  | EmptyString => EmptyString
  | String c s' => if isWhiteSpace c then trimStart s' else s
  end.

Fixpoint trimEnd (s : string) : string :=
  match s with
  | EmptyString => EmptyString
  | String c s' =>
      match trimEnd s' with
      | EmptyString => if isWhiteSpace c then EmptyString
                       else String c EmptyString
      | t => String c t
      end
  end.

Definition trim (s : string) : string := trimEnd (trimStart s).

Definition isDigit (c : ascii) : bool :=
  let n := nat_of_ascii c in ((48 <= n) && (n <= 57))%nat.

Fixpoint allDigits (s : string) : bool :=
  match s with
  | EmptyString => true
  | String c s' => isDigit c && allDigits s'
  end.

(** [/^[0-9]+$/.test(s)] *)
Definition decimalOnly (s : string) : bool :=
  match s with
  | EmptyString => false
  | _ => allDigits s
  end.

(** [BigInt(s)] for a string of decimal digits. *)
Fixpoint digitsValue (s : string) (acc : Z) : Z :=
  match s with
  | EmptyString => acc
  | String c s' => digitsValue s' (10 * acc + (Z.of_nat (nat_of_ascii c) - 48))
  end.

Inductive parsed : Type :=
| ParseOk (value : Z)
| ParseError (error : string).

(** The [catch] branch answers an engine that refuses an over-long
    literal; BigInt is unbounded here, so it is never taken. *)
Definition parseBigIntDec (str : string) : parsed :=
  let s := trim str in
  if negb (decimalOnly s) then ParseError "Masukkan hanya angka desimal."
  else ParseOk (digitsValue s 0).

(** ** The session: module-level variables and input fields *)

(** The four derived variables [A], [B], [sAlice], [sBob]. *)
Inductive derived : Type := var_A | var_B | var_sAlice | var_sBob.

Module Session.

Record t : Type := Make {
  (* the four input fields, [pInput.value] ... [bInput.value] *)
  pInput : string;
  gInput : string;
  aInput : string;
  bInput : string;
  (* let stepIdx = 0; *)
  stepIdx : Z;
  (* let p = 23n, g = 5n, a = 6n, b = 15n; *)
  p : Z;
  g : Z;
  a : Z;
  b : Z;
  (* let A = null, B = null, sAlice = null, sBob = null; *)
  A : option Z;
  B : option Z;
  sAlice : option Z;
  sBob : option Z;
  (* msgBox.textContent *)
  messages : string;
  (* ghost: the variables assigned a [modPow] result so far, oldest first *)
  computed : seq derived
}.

End Session.

Definition TOTAL_STEPS : Z := 9.

(** Assignments to the variables. *)
Definition set_stepIdx (v : Z) (s : Session.t) : Session.t :=
  let '(Session.Make pI gI aI bI _ p g a b A B sA sB m l) := s in
  Session.Make pI gI aI bI v p g a b A B sA sB m l.

Definition set_params (P G Asec Bsec : Z) (s : Session.t) : Session.t :=
  let '(Session.Make pI gI aI bI i _ _ _ _ A B sA sB m l) := s in
  Session.Make pI gI aI bI i P G Asec Bsec A B sA sB m l.

Definition set_derived (x : derived) (v : option Z) (s : Session.t)
  : Session.t :=
  let '(Session.Make pI gI aI bI i p g a b A B sA sB m l) := s in
  match x with
  | var_A => Session.Make pI gI aI bI i p g a b v B sA sB m l
  | var_B => Session.Make pI gI aI bI i p g a b A v sA sB m l
  | var_sAlice => Session.Make pI gI aI bI i p g a b A B v sB m l
  | var_sBob => Session.Make pI gI aI bI i p g a b A B sA v m l
  end.

Definition get_derived (x : derived) (s : Session.t) : option Z :=
  match x with
  | var_A => Session.A s
  | var_B => Session.B s
  | var_sAlice => Session.sAlice s
  | var_sBob => Session.sBob s
  end.

(** Ghost: record that [x] was computed. *)
Definition log_computed (x : derived) (s : Session.t) : Session.t :=
  let '(Session.Make pI gI aI bI i p g a b A B sA sB m l) := s in
  Session.Make pI gI aI bI i p g a b A B sA sB m (rcons l x).

(** [setMessage(msg)] *)
Definition setMessage (msg : string) (s : Session.t) : Session.t :=
  let '(Session.Make pI gI aI bI i p g a b A B sA sB _ l) := s in
  Session.Make pI gI aI bI i p g a b A B sA sB msg l.

(** [clearComputed()]: [A = B = sAlice = sBob = null]. *)
Definition clearComputed (s : Session.t) : Session.t :=
  set_derived var_A None (set_derived var_B None
    (set_derived var_sAlice None (set_derived var_sBob None s))).

(** ** readInputs (app.js, lines 186-196) *)

Inductive inputs : Type :=
| InputsOk (p g a b : Z)
| InputsError (error : string).

Definition readInputs (s : Session.t) : inputs :=
  match parseBigIntDec (Session.pInput s) with
  | ParseError e => InputsError ("p: " ++ e)
  | ParseOk pV =>
  match parseBigIntDec (Session.gInput s) with
  | ParseError e => InputsError ("g: " ++ e)
  | ParseOk gV =>
  match parseBigIntDec (Session.aInput s) with
  | ParseError e => InputsError ("a: " ++ e)
  | ParseOk aV =>
  match parseBigIntDec (Session.bInput s) with
  | ParseError e => InputsError ("b: " ++ e)
  | ParseOk bV => InputsOk pV gV aV bV
  end end end end.

(** ** Stateful functions

    A function that mutates the session maps the session before the call
    to its outcome and the session it leaves behind; when the RangeError
    is thrown that is the session at the throw. *)

Definition M (X : Type) : Type := Session.t -> res X * Session.t.

Definition retM {X} (x : X) : M X := fun s => (Ret x, s).

Definition bindM {X Y} (m : M X) (k : X -> M Y) : M Y :=
  fun s =>
    match m s with
    | (Ret x, s') => k x s'
    | (RangeError, s') => (RangeError, s')
    | (OutOfFuel, s') => (OutOfFuel, s')
    end.

(** A pure computation inside a stateful function. *)
Definition liftM {X} (r : res X) : M X := fun s => (r, s).

(** A statement that only changes the session. *)
Definition doM (f : Session.t -> Session.t) : M unit := fun s => (Ret tt, f s).

Definition getM {X} (f : Session.t -> X) : M X := fun s => (Ret (f s), s).

Notation "x <~ m ;; k" := (bindM m (fun x => k))
  (at level 61, m at next level, right associativity).
Notation "m ;;; k" := (bindM m (fun _ => k))
  (at level 61, right associativity).

(** [if (showMsgs) setMessage(msg)] *)
Definition report (showMsgs : bool) (msg : string) : M unit :=
  doM (fun s => if showMsgs then setMessage msg s else s).

(** ** validateParams (app.js, lines 198-213) *)

Definition validateParams (showMsgs : bool) : M bool :=
  R <~ getM readInputs ;;
  match R with
  | InputsError error => report showMsgs error ;;; retM false
  | InputsOk P G Asec Bsec =>
      if P <? 3 then report showMsgs "p harus >= 3." ;;; retM false
      else
        pr <~ liftM (isProbablePrime P) ;;
        if negb pr then
          report showMsgs "p tampaknya bukan prima." ;;; retM false
        else if (G <=? 1) || (G >=? P) then
          report showMsgs "g harus dalam rentang 2 .. p-1." ;;; retM false
        else if (Asec <? 2) || (Asec >=? P - 1) then
          report showMsgs "a harus dalam rentang 2 .. p-2." ;;; retM false
        else if (Bsec <? 2) || (Bsec >=? P - 1) then
          report showMsgs "b harus dalam rentang 2 .. p-2." ;;; retM false
        else
          doM (set_params P G Asec Bsec) ;;;
          report showMsgs "Parameter valid." ;;;
          retM true
  end.

(** ** nextStep (app.js, lines 346-383) *)

(** [flash], [updateComputedBoxes] and [renderSteps] only write to the
    page; they are left out. *)

(** [x = modPow(base, exp, md)] for a derived variable [x]. *)
Definition assign (x : derived) (base exp md : Z) : M Z :=
  v <~ liftM (modPow base exp md) ;;
  doM (set_derived x (Some v)) ;;;
  doM (log_computed x) ;;;
  retM v.

(** [if (x === null) x = modPow(base, exp, md);] followed by a read of
    [x]. *)
Definition ensure (x : derived) (base exp md : Z) : M Z :=
  cur <~ getM (get_derived x) ;;
  match cur with
  | None => assign x base exp md
  | Some v => retM v
  end.

Definition nextStep : M unit :=
  valid <~ validateParams false ;;
  if negb valid then doM (setMessage "Perbaiki parameter terlebih dahulu.")
  else
    idx <~ getM Session.stepIdx ;;
    if idx >=? TOTAL_STEPS then retM tt
    else
      doM (set_stepIdx (idx + 1)) ;;;
      s <~ getM (fun s => s) ;;
      let p := Session.p s in
      let g := Session.g s in
      let a := Session.a s in
      let b := Session.b s in
      match Session.stepIdx s with
      | 3 => assign var_A g a p ;;; retM tt
      | 5 => assign var_B g b p ;;; retM tt
      | 7 => Bv <~ ensure var_B g b p ;; assign var_sAlice Bv a p ;;; retM tt
      | 8 => Av <~ ensure var_A g a p ;; assign var_sBob Av b p ;;; retM tt
      | _ => retM tt
      end.

(** ** prevStep (app.js, lines 385-390) *)

Definition prevStep : M unit :=
  idx <~ getM Session.stepIdx ;;
  if idx <=? 0 then retM tt
  else doM (set_stepIdx (idx - 1)).

(** ** resetAll (app.js, lines 392-401) *)

Definition resetAll : M unit :=
  R <~ getM readInputs ;;
  (match R with
   | InputsOk P G Asec Bsec => doM (set_params P G Asec Bsec)
   | InputsError _ => retM tt
   end) ;;;
  doM (set_stepIdx 0) ;;;
  doM clearComputed ;;;
  doM (setMessage EmptyString).

(** The verdict of step 9 in [renderSteps]:
    [sAlice !== null && sBob !== null && sAlice === sBob]. *)
Definition verified (s : Session.t) : bool :=
  match Session.sAlice s, Session.sBob s with
  | Some x, Some y => x =? y
  | _, _ => false
  end.

(** * Vocabulary of the statements *)

(** The quadruple a session's input fields hold passes every check of
    [validateParams]. *)
Definition accepted (s : Session.t) (P G Asec Bsec : Z) : Prop :=
  readInputs s = InputsOk P G Asec Bsec
  /\ 3 <= P /\ isProbablePrime P = Ret true
  /\ 2 <= G <= P - 1 /\ 2 <= Asec <= P - 2 /\ 2 <= Bsec <= P - 2.

(** Some check of [validateParams] turns the input fields down. *)
Inductive rejected (s : Session.t) : Prop :=
| reject_text error :
    readInputs s = InputsError error -> rejected s
| reject_p_small P G Asec Bsec :
    readInputs s = InputsOk P G Asec Bsec -> P < 3 -> rejected s
| reject_p_not_prime P G Asec Bsec :
    readInputs s = InputsOk P G Asec Bsec ->
    isProbablePrime P = Ret false -> rejected s
| reject_g P G Asec Bsec :
    readInputs s = InputsOk P G Asec Bsec ->
    ~ (2 <= G <= P - 1) -> rejected s
| reject_a P G Asec Bsec :
    readInputs s = InputsOk P G Asec Bsec ->
    ~ (2 <= Asec <= P - 2) -> rejected s
| reject_b P G Asec Bsec :
    readInputs s = InputsOk P G Asec Bsec ->
    ~ (2 <= Bsec <= P - 2) -> rejected s.

(** The session a successful [nextStep] leaves behind, for the validated
    quadruple [P G Asec Bsec] and the session [s] right after the
    assignments [p = P; g = G; a = Asec; b = Bsec; stepIdx++]. *)
Definition entered (P G Asec Bsec : Z) (s : Session.t) : Session.t :=
  let compute x v := log_computed x (set_derived x (Some v) s) in
  match Session.stepIdx s with
  | 3 => compute var_A (G ^ Asec mod P)
  | 5 => compute var_B (G ^ Bsec mod P)
  | 7 =>
      match Session.B s with
      | Some Bv => compute var_sAlice (Bv ^ Asec mod P)
      | None =>
          let Bv := G ^ Bsec mod P in
          log_computed var_sAlice
            (set_derived var_sAlice (Some (Bv ^ Asec mod P))
               (log_computed var_B (set_derived var_B (Some Bv) s)))
      end
  | 8 =>
      match Session.A s with
      | Some Av => compute var_sBob (Av ^ Bsec mod P)
      | None =>
          let Av := G ^ Asec mod P in
          log_computed var_sBob
            (set_derived var_sBob (Some (Av ^ Bsec mod P))
               (log_computed var_A (set_derived var_A (Some Av) s)))
      end
  | _ => s
  end.

(** The two calls the step buttons make. *)
Inductive call : Type := call_nextStep | call_prevStep.

Definition perform (c : call) : M unit :=
  match c with
  | call_nextStep => nextStep
  | call_prevStep => prevStep
  end.

(** The calls of [cs] one after the other. *)
Fixpoint run (cs : seq call) : M unit :=
  match cs with
  | [::] => retM tt
  | c :: cs' => perform c ;;; run cs'
  end.

(** No [d] with [2 <= d < k] divides [n]. *)
Fixpoint no_divisor_below (k : nat) (n : Z) : bool :=
  match k with
  | O => true
  | S k' =>
      no_divisor_below k' n
      && ((Z.of_nat k' <? 2) || negb (n mod Z.of_nat k' =? 0))
  end.

(** Primality by exhaustive trial division. *)
Definition divisor_free (n : Z) : bool :=
  (1 <? n) && no_divisor_below (Z.to_nat n) n.

(** The session when the script has loaded: the variables at their
    declared values, the input fields holding the given texts. *)
Definition defaults (pI gI aI bI : string) : Session.t :=
  Session.Make pI gI aI bI 0 23 5 6 15 None None None None EmptyString [::].

(** The step that owns a derived variable. *)
Definition owner (x : derived) : Z :=
  match x with
  | var_A => 3
  | var_B => 5
  | var_sAlice => 7
  | var_sBob => 8
  end.

Definition same_derived (x y : derived) : bool :=
  match x, y with
  | var_A, var_A | var_B, var_B
  | var_sAlice, var_sAlice | var_sBob, var_sBob => true
  | _, _ => false
  end.

(** How often [x] has been computed in the session so far. *)
Definition times_computed (x : derived) (s : Session.t) : nat :=
  count (same_derived x) (Session.computed s).

(** How often the calls [cs], made from session [s], move the cursor
    onto step [k]. *)
Fixpoint entries (k : Z) (cs : seq call) (s : Session.t) : nat :=
  match cs with
  | [::] => 0
  | c :: cs' =>
      let s' := (perform c s).2 in
      let moved_onto_k :=
        (Session.stepIdx s <? Session.stepIdx s') && (Session.stepIdx s' =? k) in
      (moved_onto_k + entries k cs' s')%nat
  end.

(** What the quadruple makes of a derived variable. *)
Definition value_of (P G Asec Bsec : Z) (x : derived) : Z :=
  match x with
  | var_A => G ^ Asec mod P
  | var_B => G ^ Bsec mod P
  | var_sAlice => (G ^ Bsec mod P) ^ Asec mod P
  | var_sBob => (G ^ Asec mod P) ^ Bsec mod P
  end.

(** What holds of a session in the middle of a run: the fields are
    valid, the cursor is in range, every derived value whose step lies
    at or below the cursor is known, and a known value is the one the
    quadruple gives. *)
Definition consistent (P G Asec Bsec : Z) (s : Session.t) : Prop :=
  accepted s P G Asec Bsec
  /\ 0 <= Session.stepIdx s <= 9
  /\ (forall x, owner x <= Session.stepIdx s ->
                get_derived x s = Some (value_of P G Asec Bsec x))
  /\ (forall x v, get_derived x s = Some v -> v = value_of P G Asec Bsec x).

(** Bytes one draw takes for a bound, and the masked value of the draw
    that starts at byte [pos] of the source. *)
Definition byteLength (bound : Z) : nat :=
  Z.to_nat ((bitLength bound + 7) / 8).

Definition drawn (bound : Z) (rnd : entropy) (pos : nat) : Z :=
  Z.land (assemble (getRandomValues rnd pos (byteLength bound)) 0)
         (Z.shiftl 1 (bitLength bound) - 1).

(** A source that only ever delivers the byte 0x00 and one that only
    delivers 0xff. *)
Definition zeros : entropy := fun _ => Byte.x00.
Definition ones : entropy := fun _ => Byte.xff.

(** [f] holds of [lo], [lo + 1], ..., [lo + count - 1]. *)
Fixpoint holds_from (f : Z -> bool) (lo : Z) (count : nat) : bool :=
  match count with
  | O => true
  | S count' => f lo && holds_from f (lo + 1) count'
  end.

(** [isProbablePrime] does not accept [n] without [n] being prime. *)
Definition verdict_sound (n : Z) : bool :=
  match isProbablePrime n with
  | Ret true => divisor_free n
  | _ => true
  end.

(** [g] has order [P - 1] modulo [P]: the powers of [g] that are 1 are those whose
    exponent is a multiple of [P - 1]. *)
Definition primitive_root (P g : Z) : Prop :=
  forall k, 0 <= k -> (g ^ k mod P = 1 <-> (P - 1 | k)).

(** [g] passes the test on the prime factors of [P - 1]. *)
Definition passes_test (P g : Z) : Prop :=
  forall q, Znumtheory.prime q -> (q | P - 1) ->
            g ^ ((P - 1) / q) mod P <> 1.

(** * Properties *)

Section BigIntFacts.

Lemma brem_nz x y : y <> 0 -> brem x y = Ret (Z.rem x y).
Proof. by rewrite /brem => /Z.eqb_neq ->. Qed.

Lemma brem_pos x y : 0 <= x -> 0 < y -> brem x y = Ret (x mod y).
Proof.
  intros Hx Hy. rewrite -> brem_nz by lia.
  rewrite -> Z.rem_mod_nonneg by lia. reflexivity.
Qed.

(** The normalisation [((base % mod) + mod) % mod] is the residue of
    [base] in [[0, mod)], whatever the sign of [base]. *)
Lemma normalise_mod base md :
  0 < md -> Z.rem (Z.rem base md + md) md = base mod md.
Proof.
  intros Hmd.
  assert (Hb : Z.abs (Z.rem base md) < Z.abs md)
    by (apply Z.rem_bound_abs; lia).
  rewrite -> (Z.rem_mod_nonneg (Z.rem base md + md)) by lia.
  symmetry.
  apply Z.mod_unique_pos with (q := base / md - Z.quot base md + 1).
  - apply Z.mod_pos_bound; lia.
  - pose proof (Z.quot_rem' base md) as E.
    pose proof (Z_div_mod_eq_full base md) as E2.
    lia.
Qed.

End BigIntFacts.

(** ** modPow computes the modular power *)

Section ModPow.

Lemma bits_bound e : 0 <= e -> e < 2 ^ Z.of_nat (bits e).
Proof.
  intros He. unfold bits. rewrite Nat2Z.inj_succ.
  rewrite -> Z2Nat.id by apply Z.log2_nonneg.
  destruct (Z.eq_dec e 0) as [->|Hne]; first by [].
  apply Z.log2_spec. lia.
Qed.

Lemma land_1 e : Z.land e 1 = e mod 2.
Proof. exact (Z.land_ones e 1 (Z.le_0_1)). Qed.

Lemma shiftr_1 e : Z.shiftr e 1 = e / 2.
Proof. rewrite -> Z.shiftr_div_pow2 by lia. reflexivity. Qed.

Lemma pow_halve b e :
  0 <= e -> b ^ e = (if e mod 2 =? 0 then 1 else b) * (b * b) ^ (e / 2).
Proof.
  intros He.
  pose proof (Z_div_mod_eq_full e 2) as Ee.
  pose proof (Z.mod_pos_bound e 2 ltac:(lia)) as Hm.
  assert (Hh : 0 <= e / 2) by (apply Z.div_pos; lia).
  rewrite <- Z.pow_2_r. rewrite <- Z.pow_mul_r by lia.
  destruct (Z.eqb_spec (e mod 2) 0) as [E0|E1].
  - rewrite Z.mul_1_l. f_equal. lia.
  - rewrite <- (Z.pow_1_r b) at 2. rewrite <- Z.pow_add_r by lia.
    f_equal. lia.
Qed.

(** The loop keeps [result * b ^ e] fixed modulo [md]. *)
Lemma modPow_loop_spec fuel :
  forall result b e md,
    1 < md -> 0 <= result < md -> 0 <= b < md ->
    0 <= e < 2 ^ Z.of_nat fuel ->
    modPow_loop fuel result b e md = Ret ((result * b ^ e) mod md).
Proof.
  induction fuel as [|fuel IH]; intros result b e md Hmd Hr Hb He.
  - assert (e = 0) as -> by (simpl in He; lia).
    simpl. rewrite Z.mul_1_r. rewrite -> Z.mod_small by lia. reflexivity.
  - cbn [modPow_loop].
    destruct (Z.gtb_spec e 0) as [Hpos|Hz].
    2:{ assert (e = 0) as -> by lia.
        rewrite Z.pow_0_r Z.mul_1_r. rewrite -> Z.mod_small by lia.
        reflexivity. }
    rewrite land_1 shiftr_1.
    assert (Hsq : brem (b * b) md = Ret ((b * b) mod md))
      by (apply brem_pos; nia).
    assert (Hhalf : 0 <= e / 2 < 2 ^ Z.of_nat fuel).
    { rewrite -> Nat2Z.inj_succ, -> Z.pow_succ_r in He by lia.
      split; [apply Z.div_pos; lia | apply Z.div_lt_upper_bound; lia]. }
    assert (Hb' : 0 <= (b * b) mod md < md) by (apply Z.mod_pos_bound; lia).
    pose proof (Z_div_mod_eq_full e 2) as Ee.
    pose proof (Z.mod_pos_bound e 2 ltac:(lia)) as Hm.
    assert (Hpow : forall r, (r * ((b * b) mod md) ^ (e / 2)) mod md
                             = (r * (b * b) ^ (e / 2)) mod md).
    { intros r. rewrite -> Z.mul_mod by lia.
      rewrite <- Zpower_mod by lia.
      rewrite <- Z.mul_mod by lia. reflexivity. }
    rewrite -> (pow_halve b (e := e)) by lia.
    unfold truthy.
    destruct (Z.eqb_spec (e mod 2) 0) as [Hev|Hodd]; cbn [negb bind].
    + rewrite Hsq. cbn [bind]. rewrite -> IH by assumption.
      f_equal. rewrite Hpow. f_equal. ring.
    + rewrite -> brem_pos by nia. cbn [bind]. rewrite Hsq. cbn [bind].
      rewrite -> IH by (try assumption; apply Z.mod_pos_bound; lia).
      f_equal. rewrite Hpow.
      rewrite -> Z.mul_mod by lia. rewrite -> Z.mod_mod by lia.
      rewrite <- Z.mul_mod by lia. f_equal. ring.
Qed.

(** [modPow] on a modulus of at least 1 and an exponent of at least 0. *)
Lemma modPow_value base e md :
  0 <= e -> 1 <= md -> modPow base e md = Ret (base ^ e mod md).
Proof.
  intros He Hmd. unfold modPow.
  destruct (Z.eqb_spec md 1) as [->|Hne].
  - now rewrite Z.mod_1_r.
  - rewrite -> brem_nz by lia. cbn [bind].
    rewrite -> brem_nz by lia. cbn [bind].
    rewrite -> normalise_mod by lia.
    pose proof (Z.mod_pos_bound base md ltac:(lia)) as Hb.
    pose proof (bits_bound He) as Hf.
    rewrite -> modPow_loop_spec by lia.
    rewrite Z.mul_1_l. rewrite <- Zpower_mod by lia. reflexivity.
Qed.

End ModPow.

(** C6. For every base (negative and over-range ones included), every
    exponent [e >= 0] and every modulus [md >= 1], [modPow base e md]
    returns [base ^ e mod md]; the result is [0] when the modulus is 1;
    and the base counts only through its residue in [[0, md)]: [modPow]
    of the base and of that residue agree. *)
Theorem modPow_correct (base e md : Z) :
  0 <= e -> 1 <= md ->
  modPow base e md = Ret (base ^ e mod md)
  /\ modPow base e 1 = Ret 0
  /\ 0 <= base mod md < md
  /\ modPow base e md = modPow (base mod md) e md.
Proof.
  intros He Hmd. repeat split.
  - apply modPow_value; assumption.
  - apply Z.mod_pos_bound; lia.
  - apply Z.mod_pos_bound; lia.
  - rewrite -> !modPow_value by assumption.
    rewrite <- Zpower_mod by lia. reflexivity.
Qed.

Lemma modPow_correct_witness :
  modPow (-3) 5 7 = Ret ((-3) ^ 5 mod 7)
  /\ modPow (-3) 5 1 = Ret 0
  /\ 0 <= (-3) mod 7 < 7
  /\ modPow (-3) 5 7 = modPow ((-3) mod 7) 5 7.
Proof. apply (@modPow_correct (-3) 5 7); lia. Defined.

(** ** isProbablePrime always answers *)

Section PrimalityTotal.

Lemma smallPrimes_loop_total n ps :
  all (fun p => negb (p =? 0)) ps ->
  exists r, smallPrimes_loop n ps = Ret r.
Proof.
  elim: ps => [|p ps IH] /=; first by exists None.
  case/andP => /negbTE Hp Hps.
  case: (n =? p); first by exists (Some true).
  rewrite /brem Hp /=.
  case: (Z.rem n p =? 0); first by exists (Some false).
  exact: IH.
Qed.

Lemma split_loop_total fuel :
  forall d s, 0 < d < 2 ^ Z.of_nat fuel ->
  exists d' s', split_loop fuel d s = Ret (d', s') /\ 0 < d'.
Proof.
  induction fuel as [|fuel IH]; intros d s Hd.
  - simpl in Hd. lia.
  - cbn [split_loop]. rewrite land_1.
    destruct (Z.eqb_spec (d mod 2) 0) as [Hev|Hodd].
    + rewrite shiftr_1. apply IH.
      rewrite -> Nat2Z.inj_succ, -> Z.pow_succ_r in Hd by lia.
      pose proof (Z_div_mod_eq_full d 2). lia.
    + exists d, s. split; [reflexivity | lia].
Qed.

Lemma check_loop_total fuel :
  forall r s x n, n <> 0 -> s - r <= Z.of_nat fuel ->
  exists ok, check_loop fuel r s x n = Ret ok.
Proof.
  induction fuel as [|fuel IH]; intros r s x n Hn Hf; cbn [check_loop].
  - destruct (Z.ltb_spec r s); [lia | by exists false].
  - destruct (Z.ltb_spec r s); last by exists false.
    rewrite -> brem_nz by assumption. cbn [bind].
    destruct (Z.rem (x * x) n =? n - 1); first by exists true.
    apply IH; [assumption | lia].
Qed.

Lemma check_total n d s a :
  2 <= n -> 0 <= d -> exists ok, check n d s a = Ret ok.
Proof.
  intros Hn Hd. unfold check. rewrite -> brem_nz by lia. cbn [bind].
  destruct (Z.rem a n =? 0); first by exists true.
  rewrite -> modPow_value by lia. cbn [bind].
  destruct ((a ^ d mod n =? 1) || (a ^ d mod n =? n - 1));
    first by exists true.
  apply check_loop_total; lia.
Qed.

Lemma bases_loop_total n d s bs :
  2 <= n -> 0 <= d -> exists r, bases_loop n d s bs = Ret r.
Proof.
  intros Hn Hd. induction bs as [|a bs IH]; first by exists true.
  cbn [bases_loop]. destruct (check_total s a Hn Hd) as [ok ->].
  cbn [bind]. destruct ok; [exact IH | by exists false].
Qed.

(** The primality test returns a verdict for every integer: it neither
    throws nor loops. *)
Lemma isProbablePrime_total n : exists r, isProbablePrime n = Ret r.
Proof.
  unfold isProbablePrime.
  destruct (Z.ltb_spec n 2) as [Hlt|Hge]; first by exists false.
  destruct (@smallPrimes_loop_total n smallPrimes) as [early ->];
    first by [].
  cbn [bind]. destruct early as [r|]; first by exists r.
  destruct (@split_loop_total (bits (n - 1)) (n - 1) 0) as (d & s & -> & Hd).
  { split; [lia | apply bits_bound; lia]. }
  cbn [bind]. apply bases_loop_total; lia.
Qed.

End PrimalityTotal.

(** ** The validation gate *)

Section Validation.

Lemma validateParams_accepted showMsgs s P G Asec Bsec :
  accepted s P G Asec Bsec ->
  validateParams showMsgs s =
    (Ret true,
     let s' := set_params P G Asec Bsec s in
     if showMsgs then setMessage "Parameter valid." s' else s').
Proof.
  intros (HR & HP & Hpr & HG & HA & HB).
  unfold validateParams, bindM, getM, liftM, report, doM, retM.
  rewrite HR.
  destruct (Z.ltb_spec P 3); first lia.
  rewrite Hpr. cbn [negb].
  destruct (Z.leb_spec G 1); first lia.
  destruct (Z.geb_spec G P); first lia.
  destruct (Z.ltb_spec Asec 2); first lia.
  destruct (Z.geb_spec Asec (P - 1)); first lia.
  destruct (Z.ltb_spec Bsec 2); first lia.
  destruct (Z.geb_spec Bsec (P - 1)); first lia.
  reflexivity.
Qed.

(** A refusal changes nothing but, when asked to, the message. *)
Lemma validateParams_rejected showMsgs s :
  rejected s ->
  exists msg,
    validateParams showMsgs s =
      (Ret false, if showMsgs then setMessage msg s else s).
Proof.
  intros Hrej.
  unfold validateParams, bindM, getM, liftM, report, doM, retM.
  destruct Hrej as [e HR|P G Asec Bsec HR H|P G Asec Bsec HR H
                    |P G Asec Bsec HR H|P G Asec Bsec HR H
                    |P G Asec Bsec HR H]; rewrite HR.
  - by exists e.
  - destruct (Z.ltb_spec P 3); last lia. by eexists.
  - destruct (Z.ltb_spec P 3); first by eexists.
    rewrite H. by eexists.
  - destruct (Z.ltb_spec P 3); first by eexists.
    destruct (isProbablePrime_total P) as [[|] ->]; last by eexists.
    cbn [negb].
    destruct (Z.leb_spec G 1); first by eexists.
    destruct (Z.geb_spec G P); first by eexists.
    lia.
  - destruct (Z.ltb_spec P 3); first by eexists.
    destruct (isProbablePrime_total P) as [[|] ->]; last by eexists.
    cbn [negb].
    destruct ((G <=? 1) || (G >=? P)); first by eexists.
    destruct (Z.ltb_spec Asec 2); first by eexists.
    destruct (Z.geb_spec Asec (P - 1)); first by eexists.
    lia.
  - destruct (Z.ltb_spec P 3); first by eexists.
    destruct (isProbablePrime_total P) as [[|] ->]; last by eexists.
    cbn [negb].
    destruct ((G <=? 1) || (G >=? P)); first by eexists.
    destruct ((Asec <? 2) || (Asec >=? P - 1)); first by eexists.
    destruct (Z.ltb_spec Bsec 2); first by eexists.
    destruct (Z.geb_spec Bsec (P - 1)); first by eexists.
    lia.
Qed.

(** Every session's fields are either accepted or rejected, so
    [validateParams] always returns a verdict. *)
Lemma accepted_or_rejected s :
  (exists P G Asec Bsec, accepted s P G Asec Bsec) \/ rejected s.
Proof.
  destruct (readInputs s) as [P G Asec Bsec|e] eqn:HR;
    last by right; apply (reject_text HR).
  destruct (Z.lt_ge_cases P 3); first by right; apply (reject_p_small HR).
  destruct (isProbablePrime_total P) as [[|] Hpr];
    last by right; apply (reject_p_not_prime HR).
  destruct (Z.le_gt_cases 2 G);
    last by right; apply (reject_g HR); lia.
  destruct (Z.le_gt_cases G (P - 1));
    last by right; apply (reject_g HR); lia.
  destruct (Z.le_gt_cases 2 Asec);
    last by right; apply (reject_a HR); lia.
  destruct (Z.le_gt_cases Asec (P - 2));
    last by right; apply (reject_a HR); lia.
  destruct (Z.le_gt_cases 2 Bsec);
    last by right; apply (reject_b HR); lia.
  destruct (Z.le_gt_cases Bsec (P - 2));
    last by right; apply (reject_b HR); lia.
  left. exists P, G, Asec, Bsec. repeat split; assumption.
Qed.

End Validation.

(** ** One call of nextStep *)

Section NextStep.

Lemma nextStep_accepted s P G Asec Bsec :
  accepted s P G Asec Bsec ->
  nextStep s =
    (Ret tt,
     let s1 := set_params P G Asec Bsec s in
     if Session.stepIdx s >=? TOTAL_STEPS then s1
     else entered P G Asec Bsec (set_stepIdx (Session.stepIdx s + 1) s1)).
Proof.
  intros Hacc. unfold nextStep, bindM at 1.
  rewrite (validateParams_accepted false Hacc).
  destruct Hacc as (HR & HP & Hpr & HG & HA & HB).
  destruct s as [pI gI aI bI i p g a b A B sA sB m l].
  cbn [negb set_params Session.stepIdx].
  unfold bindM, getM, doM, retM, entered, assign, ensure, liftM.
  cbn [Session.stepIdx set_stepIdx].
  destruct (i >=? TOTAL_STEPS); first reflexivity.
  cbn [Session.stepIdx Session.p Session.g Session.a Session.b
       Session.A Session.B].
  assert (HmA : modPow G Asec P = Ret (G ^ Asec mod P))
    by (apply modPow_value; lia).
  assert (HmB : modPow G Bsec P = Ret (G ^ Bsec mod P))
    by (apply modPow_value; lia).
  assert (HmS : forall x, modPow x Asec P = Ret (x ^ Asec mod P))
    by (intros; apply modPow_value; lia).
  assert (HmT : forall x, modPow x Bsec P = Ret (x ^ Bsec mod P))
    by (intros; apply modPow_value; lia).
  destruct (i + 1) as [|q|q]; try reflexivity.
  destruct q as [[[q|q|]|[q|q|]|]|[[q|q|]|[q|q|]|]|]; try reflexivity;
    cbn -[modPow Z.pow Z.modulo].
  - (* 7 *) destruct B as [Bv|]; cbn -[modPow Z.pow Z.modulo].
    + rewrite HmS. reflexivity.
    + rewrite HmB. cbn -[modPow Z.pow Z.modulo]. rewrite HmS. reflexivity.
  - (* 5 *) rewrite HmB. reflexivity.
  - (* 3 *) rewrite HmA. reflexivity.
  - (* 8 *) destruct q; try reflexivity.
    destruct A as [Av|]; cbn -[modPow Z.pow Z.modulo].
    + rewrite HmT. reflexivity.
    + rewrite HmA. cbn -[modPow Z.pow Z.modulo]. rewrite HmT. reflexivity.
Qed.

Lemma nextStep_rejected s :
  rejected s ->
  nextStep s =
    (Ret tt, setMessage "Perbaiki parameter terlebih dahulu." s).
Proof.
  intros Hrej. unfold nextStep, bindM.
  destruct (validateParams_rejected false Hrej) as [msg ->].
  reflexivity.
Qed.

End NextStep.

(** ** Runs of the stepper *)

Section NineSteps.

(** Both parties' secrets are [G ^ (Asec * Bsec)] modulo [P]. *)
Lemma shared_secret G Asec Bsec P :
  0 < P -> 0 <= Asec -> 0 <= Bsec ->
  (G ^ Bsec mod P) ^ Asec mod P = (G ^ Asec mod P) ^ Bsec mod P.
Proof.
  intros HP HA HB.
  rewrite <- !Zpower_mod by lia.
  rewrite <- !Z.pow_mul_r by lia.
  f_equal. f_equal. lia.
Qed.

Ltac advance_once Hacc :=
  cbn [run perform]; unfold bindM at 1;
  erewrite nextStep_accepted; [|exact Hacc];
  cbn [set_params set_stepIdx set_derived log_computed entered
       Session.stepIdx Session.A Session.B Z.add Pos.add Pos.succ
       TOTAL_STEPS Z.geb Z.compare Pos.compare Pos.compare_cont];
  cbv beta zeta.

(** C3. From cursor 0 with a validated quadruple in the input fields,
    nine calls of [nextStep] all complete, reach cursor 9 and leave
    [sAlice] and [sBob] holding the same value; a further call at cursor
    9 completes and leaves the session exactly as it was. *)
Theorem nine_steps_reach_agreement (s : Session.t) (P G Asec Bsec : Z) :
  Session.stepIdx s = 0 ->
  accepted s P G Asec Bsec ->
  exists s9,
    run (nseq 9 call_nextStep) s = (Ret tt, s9)
    /\ Session.stepIdx s9 = 9
    /\ (exists S, Session.sAlice s9 = Some S /\ Session.sBob s9 = Some S)
    /\ nextStep s9 = (Ret tt, s9).
Proof.
  intros Hi Hacc.
  destruct s as [pI gI aI bI i p g a b A B sA sB m l].
  cbn [Session.stepIdx] in Hi. subst i.
  change (nseq 9 call_nextStep) with
    [:: call_nextStep; call_nextStep; call_nextStep; call_nextStep;
        call_nextStep; call_nextStep; call_nextStep; call_nextStep;
        call_nextStep].
  eexists. split.
  { do 9 advance_once Hacc. reflexivity. }
  split; [reflexivity|]. split.
  - exists ((G ^ Bsec mod P) ^ Asec mod P). split; [reflexivity|].
    cbn [Session.sBob]. f_equal. symmetry.
    destruct Hacc as (_ & ? & _ & _ & ? & ?). apply shared_secret; lia.
  - erewrite nextStep_accepted; [|exact Hacc]. reflexivity.
Qed.

Lemma defaults_accepted :
  accepted (defaults "23" "5" "6" "15") 23 5 6 15.
Proof.
  split; [reflexivity|]. split; [lia|]. split; [by vm_compute|]. lia.
Qed.

Lemma nine_steps_reach_agreement_witness :
  exists s9,
    run (nseq 9 call_nextStep) (defaults "23" "5" "6" "15") = (Ret tt, s9)
    /\ Session.stepIdx s9 = 9
    /\ (exists S, Session.sAlice s9 = Some S /\ Session.sBob s9 = Some S)
    /\ nextStep s9 = (Ret tt, s9).
Proof.
  apply (@nine_steps_reach_agreement (defaults "23" "5" "6" "15") 23 5 6 15).
  - reflexivity.
  - exact defaults_accepted.
Defined.

End NineSteps.

(** ** Ground truth for primality *)

Section GroundTruth.

Lemma no_divisor_below_spec k n :
  no_divisor_below k n ->
  forall d, 2 <= d < Z.of_nat k -> n mod d <> 0.
Proof.
  induction k as [|k IH]; intros Hk d Hd; first lia.
  cbn [no_divisor_below] in Hk.
  move/andP: Hk => [Hk Hlast].
  destruct (Z.eq_dec d (Z.of_nat k)) as [->|Hne].
  - move/orP: Hlast => [/Z.ltb_lt|/negbTE/Z.eqb_neq]; [lia | done].
  - apply IH; [assumption | lia].
Qed.

Lemma divisor_free_prime n : divisor_free n -> Znumtheory.prime n.
Proof.
  move/andP => [/Z.ltb_lt Hn Hk].
  apply prime_alt. split; first assumption.
  intros d Hd Hdiv.
  apply (@no_divisor_below_spec (Z.to_nat n) n Hk d); first lia.
  apply Z.mod_divide; [lia | assumption].
Qed.

End GroundTruth.

(** ** Diffie-Hellman agreement *)

(** C1. For every prime [p], every [g] in [[2, p-1]] and all secrets [a],
    [b] in [[2, p-2]], [modPow(modPow(g,a,p), b, p)] and
    [modPow(modPow(g,b,p), a, p)] return the same value.  With 23, 5, 6
    and 15 in the input fields the nine steps compute A = 8, B = 19,
    sAlice = 2 and sBob = 2, and step 9 reports a match. *)
Theorem dh_agreement :
  (forall p g a b : Z,
      Znumtheory.prime p ->
      2 <= g <= p - 1 -> 2 <= a <= p - 2 -> 2 <= b <= p - 2 ->
      exists S,
        (A <- modPow g a p ;; modPow A b p) = Ret S
        /\ (B <- modPow g b p ;; modPow B a p) = Ret S)
  /\ (modPow 5 6 23 = Ret 8 /\ modPow 5 15 23 = Ret 19
      /\ modPow 19 6 23 = Ret 2 /\ modPow 8 15 23 = Ret 2)
  /\ (let r := run (nseq 9 call_nextStep) (defaults "23" "5" "6" "15") in
      r.1 = Ret tt
      /\ Session.stepIdx r.2 = 9
      /\ Session.A r.2 = Some 8 /\ Session.B r.2 = Some 19
      /\ Session.sAlice r.2 = Some 2 /\ Session.sBob r.2 = Some 2
      /\ verified r.2 = true).
Proof.
  split; [|split; [by vm_compute | by vm_compute]].
  intros p g a b Hp Hg Ha Hb.
  pose proof (prime_ge_2 p Hp) as Hp2.
  exists ((g ^ a mod p) ^ b mod p).
  rewrite -> !modPow_value by lia. cbn [bind].
  rewrite -> !modPow_value by lia.
  split; [reflexivity|]. f_equal. apply shared_secret; lia.
Qed.

Lemma dh_agreement_witness :
  Znumtheory.prime 23
  /\ exists S,
      (A <- modPow 5 6 23 ;; modPow A 15 23) = Ret S
      /\ (B <- modPow 5 15 23 ;; modPow B 6 23) = Ret S.
Proof.
  assert (H23 : Znumtheory.prime 23) by (apply divisor_free_prime; by vm_compute).
  split; [exact H23|].
  apply (proj1 dh_agreement 23 5 6 15 H23); lia.
Defined.

(** ** The primality test below 2^64 *)

(** C2 (failing input).  341550071728321 = 10670053 * 32010157 is below
    [2^64] and composite, has no factor among the small primes and passes
    every one of the seven bases: [isProbablePrime] returns [true]. *)
Theorem isProbablePrime_accepts_composite :
  341550071728321 < 2 ^ 64
  /\ 341550071728321 = 10670053 * 32010157
  /\ ~ Znumtheory.prime 341550071728321
  /\ isProbablePrime 341550071728321 = Ret true.
Proof.
  split; [reflexivity|]. split; [reflexivity|]. split; [|by vm_compute].
  intros Hp.
  destruct (prime_divisors _ Hp 10670053) as [H|[H|[H|H]]]; try discriminate.
  exists 32010157. reflexivity.
Qed.

(** ** Validation failures *)

(** C5. When a check of validation turns the input fields down (a text
    that is not a decimal number, [p < 3], [p] failing the primality
    test, or [g], [a], [b] out of bounds), [validateParams] answers
    [false] without touching the session and [nextStep] only sets the
    failure message: the cursor, the stored [p], [g], [a], [b] and the
    derived values stay as they were and nothing is computed.  With 15
    as [p], validation reports that [p] is not prime, and [nextStep]
    leaves [A] and [B] as they were. *)
Theorem nextStep_validation_failure :
  (forall s : Session.t,
      rejected s ->
      validateParams false s = (Ret false, s)
      /\ nextStep s =
           (Ret tt, setMessage "Perbaiki parameter terlebih dahulu." s)
      /\ (let s' := (nextStep s).2 in
          Session.stepIdx s' = Session.stepIdx s
          /\ (Session.p s', Session.g s', Session.a s', Session.b s')
             = (Session.p s, Session.g s, Session.a s, Session.b s)
          /\ (Session.A s', Session.B s', Session.sAlice s', Session.sBob s')
             = (Session.A s, Session.B s, Session.sAlice s, Session.sBob s)
          /\ Session.computed s' = Session.computed s))
  /\ (forall (s : Session.t) (G Asec Bsec : Z),
         readInputs s = InputsOk 15 G Asec Bsec ->
         rejected s
         /\ validateParams true s =
              (Ret false, setMessage "p tampaknya bukan prima." s)
         /\ Session.A (nextStep s).2 = Session.A s
         /\ Session.B (nextStep s).2 = Session.B s).
Proof.
  assert (H15 : isProbablePrime 15 = Ret false) by (by vm_compute).
  split.
  - intros s Hrej.
    destruct (validateParams_rejected false Hrej) as [msg Hv].
    rewrite (nextStep_rejected Hrej).
    split; [exact Hv|]. split; [reflexivity|].
    by destruct s.
  - intros s G Asec Bsec HR.
    assert (Hrej : rejected s) by exact (reject_p_not_prime HR H15).
    split; [exact Hrej|].
    rewrite (nextStep_rejected Hrej). split; [|by destruct s].
    unfold validateParams, bindM, getM, liftM, report, doM, retM.
    rewrite HR H15. reflexivity.
Qed.

Lemma nextStep_validation_failure_witness :
  let s := defaults "15" "5" "6" "7" in
  rejected s
  /\ nextStep s = (Ret tt, setMessage "Perbaiki parameter terlebih dahulu." s)
  /\ Session.A (nextStep s).2 = None.
Proof.
  assert (HR : readInputs (defaults "15" "5" "6" "7") = InputsOk 15 5 6 7)
    by reflexivity.
  pose proof (proj2 nextStep_validation_failure _ _ _ _ HR) as (Hrej & _ & HA & _).
  pose proof (proj1 nextStep_validation_failure _ Hrej) as (_ & Hn & _).
  split; [exact Hrej|]. split; [exact Hn|]. exact HA.
Defined.

(** C10. With 2 in the field of [p] validation fails, whatever the other
    fields hold, and the variables [p], [g], [a], [b] keep their values;
    when the other three fields are decimal numbers the message is the
    one reserved for [p < 3], which is not the message for a [p] that is
    not prime, although 2 is prime and [isProbablePrime] says so. *)
Theorem validateParams_rejects_two (s : Session.t) (showMsgs : bool) :
  parseBigIntDec (Session.pInput s) = ParseOk 2 ->
  (exists msg,
      validateParams showMsgs s =
        (Ret false, if showMsgs then setMessage msg s else s))
  /\ (let s' := (validateParams showMsgs s).2 in
      (Session.p s', Session.g s', Session.a s', Session.b s')
      = (Session.p s, Session.g s, Session.a s, Session.b s))
  /\ (forall G Asec Bsec,
         readInputs s = InputsOk 2 G Asec Bsec ->
         validateParams true s = (Ret false, setMessage "p harus >= 3." s))
  /\ "p harus >= 3."%string <> "p tampaknya bukan prima."%string
  /\ Znumtheory.prime 2
  /\ isProbablePrime 2 = Ret true.
Proof.
  intros Hp.
  assert (Hrej : rejected s).
  { destruct (readInputs s) as [P G Asec Bsec|e] eqn:HR;
      last exact (reject_text HR).
    apply (reject_p_small HR).
    revert HR. unfold readInputs. rewrite Hp.
    destruct (parseBigIntDec (Session.gInput s)); last discriminate.
    destruct (parseBigIntDec (Session.aInput s)); last discriminate.
    destruct (parseBigIntDec (Session.bInput s)); last discriminate.
    intros [= <- _ _ _]. lia. }
  destruct (validateParams_rejected showMsgs Hrej) as [msg Hv].
  split; [by exists msg|]. split.
  { rewrite Hv. destruct s, showMsgs; reflexivity. }
  split.
  { intros G Asec Bsec HR.
    unfold validateParams, bindM, getM, liftM, report, doM, retM.
    rewrite HR. reflexivity. }
  split; [discriminate|]. split; [exact prime_2 | reflexivity].
Qed.

Lemma validateParams_rejects_two_witness :
  validateParams true (defaults "2" "5" "6" "15") =
    (Ret false, setMessage "p harus >= 3." (defaults "2" "5" "6" "15")).
Proof.
  pose proof (@validateParams_rejects_two (defaults "2" "5" "6" "15") true
                (erefl _)) as (_ & _ & H & _).
  exact (H 5 6 15 (erefl _)).
Defined.

(** ** Derived values over a run *)

Section Memo.

Variables P G Asec Bsec : Z.

Lemma count_rcons_derived x l y :
  count (same_derived x) (rcons l y)
  = (same_derived x y + count (same_derived x) l)%nat.
Proof.
  by rewrite -cats1 count_cat /= addn0 addnC.
Qed.

Ltac finish_step x :=
  destruct x; cbn -[Z.pow Z.modulo];
  rewrite ?count_rcons_derived; split; reflexivity.

Lemma nextStep_consistent s :
  consistent P G Asec Bsec s ->
  exists s',
    nextStep s = (Ret tt, s') /\ consistent P G Asec Bsec s'
    /\ forall x,
        let enters := (Session.stepIdx s <? Session.stepIdx s')
                      && (Session.stepIdx s' =? owner x) in
        get_derived x s' =
          (if enters then Some (value_of P G Asec Bsec x)
           else get_derived x s)
        /\ times_computed x s' = (enters + times_computed x s)%nat.
Proof.
  intros (Hacc & Hi & Hknown & Hval).
  rewrite (nextStep_accepted Hacc).
  destruct s as [pI gI aI bI i p g a b A B sA sB m l].
  pose proof (Hknown var_A) as HkA. pose proof (Hknown var_B) as HkB.
  pose proof (Hknown var_sAlice) as HkS. pose proof (Hknown var_sBob) as HkT.
  pose proof (Hval var_A) as HvA. pose proof (Hval var_B) as HvB.
  pose proof (Hval var_sAlice) as HvS. pose proof (Hval var_sBob) as HvT.
  clear Hknown Hval.
  cbn -[Z.pow Z.modulo] in Hi, HkA, HkB, HkS, HkT, HvA, HvB, HvS, HvT.
  assert (Hcases : i = 0 \/ i = 1 \/ i = 2 \/ i = 3 \/ i = 4 \/ i = 5
                   \/ i = 6 \/ i = 7 \/ i = 8 \/ i = 9) by lia.
  unfold times_computed.
  destruct Hcases as [->|[->|[->|[->|[->|[->|[->|[->|[->| ->]]]]]]]]];
    try (rewrite -> HkA in * by lia); try (rewrite -> HkB in * by lia);
    try (rewrite -> HkS in * by lia); try (rewrite -> HkT in * by lia);
    cbn -[Z.pow Z.modulo]; eexists; (split; [reflexivity|]);
    (split;
     [ split; [exact Hacc|];
       split; [cbn; lia|];
       split;
       [ intros x Hx; destruct x; cbn -[Z.pow Z.modulo] in Hx |- *;
         first [reflexivity | lia | (apply HkA; lia) | (apply HkB; lia)
               | (apply HkS; lia) | (apply HkT; lia)]
       | intros x v Hx; destruct x; cbn -[Z.pow Z.modulo] in Hx |- *;
         first [ (injection Hx as <-; reflexivity)
               | (apply HvA; exact Hx) | (apply HvB; exact Hx)
               | (apply HvS; exact Hx) | (apply HvT; exact Hx) ] ]
     | intros x; finish_step x ]).
Qed.

(** [prevStep] only moves the cursor. *)
Lemma prevStep_effect s :
  prevStep s =
    (Ret tt,
     if Session.stepIdx s <=? 0 then s
     else set_stepIdx (Session.stepIdx s - 1) s).
Proof.
  unfold prevStep, bindM, getM, doM, retM.
  by destruct (Session.stepIdx s <=? 0).
Qed.

Lemma prevStep_keeps s x :
  get_derived x (prevStep s).2 = get_derived x s
  /\ times_computed x (prevStep s).2 = times_computed x s
  /\ (Session.stepIdx (prevStep s).2 <? Session.stepIdx s)
     || (Session.stepIdx (prevStep s).2 =? Session.stepIdx s).
Proof.
  rewrite prevStep_effect. cbn [snd].
  destruct (Z.leb_spec (Session.stepIdx s) 0) as [Hle|Hgt].
  - rewrite Z.eqb_refl orbT. by [].
  - destruct s as [pI gI aI bI i p g a b A B sA sB m l].
    cbn [Session.stepIdx set_stepIdx] in *.
    replace (i - 1 <? i) with true by (symmetry; apply Z.ltb_lt; lia).
    by destruct x.
Qed.

Lemma prevStep_consistent s : consistent P G Asec Bsec s -> consistent P G Asec Bsec (prevStep s).2.
Proof.
  intros Hc. pose proof Hc as (Hacc & Hi & Hknown & Hval).
  rewrite prevStep_effect. cbn [snd].
  destruct (Z.leb_spec (Session.stepIdx s) 0) as [Hle|Hgt];
    first exact Hc.
  destruct s as [pI gI aI bI i p g a b A B sA sB m l].
  cbn [Session.stepIdx set_stepIdx] in *.
  split; [exact Hacc|]. split; [cbn; lia|]. split.
  - intros x Hx. cbn [Session.stepIdx] in Hx.
    specialize (Hknown x ltac:(lia)). by destruct x.
  - intros x v Hx. apply (Hval x v). by destruct x.
Qed.

(** One call, of either kind, from a consistent session. *)
Lemma perform_consistent c s :
  consistent P G Asec Bsec s ->
  (perform c s).1 = Ret tt /\ consistent P G Asec Bsec (perform c s).2
  /\ forall x,
      let enters := (Session.stepIdx s <? Session.stepIdx (perform c s).2)
                    && (Session.stepIdx (perform c s).2 =? owner x) in
      get_derived x (perform c s).2 =
        (if enters then Some (value_of P G Asec Bsec x)
         else get_derived x s)
      /\ times_computed x (perform c s).2
         = (enters + times_computed x s)%nat.
Proof.
  intros Hc. destruct c; cbn [perform].
  - destruct (nextStep_consistent Hc) as (s' & -> & Hc' & Hx).
    cbn [fst snd]. split; [reflexivity|]. split; [exact Hc'|]. exact Hx.
  - split; [by rewrite prevStep_effect|].
    split; [exact (prevStep_consistent Hc)|].
    intros x. destruct (prevStep_keeps s x) as (Hd & Ht & Hi).
    assert (Hno : (Session.stepIdx s <? Session.stepIdx (prevStep s).2)
                  = false).
    { move/orP: Hi => [/Z.ltb_lt|/Z.eqb_eq] Hi; apply Z.ltb_ge; lia. }
    cbv zeta. rewrite Hno. cbn [andb]. by rewrite Hd Ht.
Qed.

(** A whole run from a consistent session. *)
Lemma run_consistent cs :
  forall s, consistent P G Asec Bsec s ->
    (run cs s).1 = Ret tt /\ consistent P G Asec Bsec (run cs s).2
    /\ forall x,
        get_derived x (run cs s).2 =
          (if entries (owner x) cs s is O then get_derived x s
           else Some (value_of P G Asec Bsec x))
        /\ times_computed x (run cs s).2
           = (entries (owner x) cs s + times_computed x s)%nat.
Proof.
  induction cs as [|c cs IH]; intros s Hc.
  { split; [reflexivity|]. split; [exact Hc|]. intros x; split; reflexivity. }
  destruct (perform_consistent c Hc) as (Hr & Hc' & Hx).
  destruct (IH _ Hc') as (Hr' & Hc'' & Hx').
  cbn [run entries]. unfold bindM.
  destruct (perform c s) as [r s1]. cbn [fst snd] in *. subst r.
  split; [exact Hr'|]. split; [exact Hc''|].
  intros x. destruct (Hx x) as (Hd & Ht). destruct (Hx' x) as (Hd' & Ht').
  rewrite Hd' Ht' Ht. split; last by rewrite addnA (addnC (entries _ _ _)).
  destruct ((Session.stepIdx s <? Session.stepIdx s1)
            && (Session.stepIdx s1 =? owner x)); cbn [nat_of_bool].
  - rewrite Hd. rewrite add1n. by destruct (entries (owner x) cs s1).
  - rewrite Hd add0n. reflexivity.
Qed.

Lemma run_cat cs cs' s :
  (run cs s).1 = Ret tt -> run (cs ++ cs') s = run cs' (run cs s).2.
Proof.
  revert s. induction cs as [|c cs IH]; intros s; first by [].
  cbn [run cat]. unfold bindM.
  destruct (perform c s) as [[[]| |] s1]; cbn [fst]; try discriminate.
  exact (IH s1).
Qed.

End Memo.

(** C4 (as the code has it).  Take a session at cursor 0 with valid input
    fields and no derived value known, and any sequence of [nextStep] and
    [prevStep] calls.  Every call completes.  A derived value is unknown
    as long as the cursor has never moved onto its owning step (3 for
    [A], 5 for [B], 7 for [sAlice], 8 for [sBob]) and from then on holds
    the value the quadruple gives, whatever calls follow.  It is computed
    once for each time the cursor moves onto its owning step, not once
    per run.  [prevStep] never changes a derived value. *)
Theorem derived_values_lazy_and_stable
    (s0 : Session.t) (P G Asec Bsec : Z) (cs : seq call) (x : derived) :
  accepted s0 P G Asec Bsec ->
  Session.stepIdx s0 = 0 ->
  (forall y, get_derived y s0 = None) ->
  let s := (run cs s0).2 in
  (run cs s0).1 = Ret tt
  /\ get_derived x s =
       (if entries (owner x) cs s0 is O then None
        else Some (value_of P G Asec Bsec x))
  /\ times_computed x s = (entries (owner x) cs s0 + times_computed x s0)%nat
  /\ (forall cs' v,
         get_derived x s = Some v ->
         get_derived x (run (cs ++ cs') s0).2 = Some v)
  /\ (forall s1,
         (prevStep s1).1 = Ret tt
         /\ get_derived x (prevStep s1).2 = get_derived x s1).
Proof.
  intros Hacc Hi Hnone s.
  assert (Hc : consistent P G Asec Bsec s0).
  { split; [exact Hacc|]. split; [lia|]. split.
    - intros y Hy. rewrite Hi in Hy. destruct y; cbn in Hy; lia.
    - intros y v Hy. rewrite Hnone in Hy. discriminate. }
  destruct (run_consistent cs Hc) as (Hr & Hc' & Hx).
  destruct (Hx x) as (Hd & Ht).
  split; [exact Hr|]. split; [by rewrite -/s in Hd; rewrite Hd Hnone|].
  split; [exact Ht|]. split.
  - intros cs' v Hv. rewrite (run_cat cs' Hr).
    destruct (run_consistent cs' Hc') as (_ & _ & Hx').
    destruct (Hx' x) as (Hd' & _). rewrite Hd'.
    destruct Hc' as (_ & _ & _ & Hval).
    rewrite Hv. rewrite (Hval x v Hv).
    by destruct (entries (owner x) cs' (run cs s0).2).
  - intros s1. split; [by rewrite prevStep_effect|].
    by destruct (prevStep_keeps s1 x).
Qed.

Lemma derived_values_lazy_and_stable_witness :
  let s0 := defaults "23" "5" "6" "15" in
  let cs := [:: call_nextStep; call_nextStep; call_nextStep; call_prevStep;
                call_prevStep] in
  Session.stepIdx (run cs s0).2 = 1
  /\ get_derived var_A (run cs s0).2 = Some 8
  /\ times_computed var_A (run cs s0).2 = 1%nat.
Proof.
  assert (Hacc : accepted (defaults "23" "5" "6" "15") 23 5 6 15).
  { split; [reflexivity|]. split; [lia|]. split; [by vm_compute|]. lia. }
  pose proof (@derived_values_lazy_and_stable
                (defaults "23" "5" "6" "15") 23 5 6 15
                [:: call_nextStep; call_nextStep; call_nextStep;
                    call_prevStep; call_prevStep]
                var_A Hacc (erefl _) (fun y => match y with
                                               | var_A | var_B
                                               | var_sAlice | var_sBob => erefl _
                                               end))
    as (_ & Hd & Ht & _).
  split; [by vm_compute|]. split; [|by vm_compute].
  rewrite Hd. by vm_compute.
Defined.

(** C4 (counterexample).  With 23, 5, 6, 15 in the fields: three calls of
    [nextStep] and one of [prevStep] leave [A] known and computed once;
    the next [nextStep] moves back onto step 3 and computes [A] a second
    time in the same run. *)
Lemma derived_value_recomputed :
  let s0 := defaults "23" "5" "6" "15" in
  let cs := [:: call_nextStep; call_nextStep; call_nextStep; call_prevStep] in
  Session.A (run cs s0).2 = Some 8
  /\ times_computed var_A (run cs s0).2 = 1%nat
  /\ Session.stepIdx (run (cs ++ [:: call_nextStep]) s0).2 = 3
  /\ times_computed var_A (run (cs ++ [:: call_nextStep]) s0).2 = 2%nat.
Proof. by vm_compute. Qed.

(** ** The sampler *)

Section Sampler.

Lemma mask_nonneg n : 0 <= n -> 0 <= Z.shiftl 1 n - 1.
Proof.
  intros Hn. rewrite -> Z.shiftl_1_l.
  pose proof (Z.pow_pos_nonneg 2 n ltac:(lia) Hn). lia.
Qed.

Lemma bitLength_nonneg x : 0 <= bitLength x.
Proof. unfold bitLength. pose proof (Z.log2_nonneg x). lia. Qed.

Lemma draw_loop_range fuel :
  forall maxExclusive mask byteLen rnd pos v pos',
    0 <= mask ->
    draw_loop fuel maxExclusive mask byteLen rnd pos = Ret (v, pos') ->
    0 <= v < maxExclusive.
Proof.
  induction fuel as [|fuel IH]; intros M mask bl rnd pos v pos' Hm;
    cbn [draw_loop]; first discriminate.
  destruct (Z.ltb_spec (Z.land (assemble (getRandomValues rnd pos bl) 0) mask) M)
    as [Hlt|Hge].
  - intros [= <- _]. split; [|exact Hlt].
    apply Z.land_nonneg. right. exact Hm.
  - apply IH. exact Hm.
Qed.

Lemma draw_loop_returns fuel :
  forall bound rnd pos k,
    (k < fuel)%coq_nat ->
    drawn bound rnd (pos + k * byteLength bound)%nat < bound ->
    exists v pos',
      draw_loop fuel bound (Z.shiftl 1 (bitLength bound) - 1)
                (byteLength bound) rnd pos = Ret (v, pos').
Proof.
  induction fuel as [|fuel IH]; intros bound rnd pos k Hk Hd; first lia.
  cbn [draw_loop]. fold (drawn bound rnd pos).
  destruct (Z.ltb_spec (drawn bound rnd pos) bound) as [Hlt|Hge];
    first by eexists; eexists.
  destruct k as [|k]; first by rewrite mul0n addn0 in Hd; lia.
  apply (IH bound rnd _ k); first lia.
  by rewrite mulSn addnA in Hd.
Qed.

Lemma randomBigIntBelow_range fuel bound rnd pos v pos' :
  0 < bound ->
  randomBigIntBelow fuel bound rnd pos = Ret (v, pos') -> 0 <= v < bound.
Proof.
  intros Hb. unfold randomBigIntBelow.
  destruct (Z.leb_spec bound 0); first lia.
  apply draw_loop_range. apply mask_nonneg, bitLength_nonneg.
Qed.

Lemma randomBigIntInRange_range fuel min max rnd pos v pos' :
  randomBigIntInRange fuel min max rnd pos = Ret (v, pos') ->
  Z.min min max <= v <= Z.max min max.
Proof.
  unfold randomBigIntInRange.
  destruct (Z.ltb_spec max min) as [Hlt|Hge];
    (destruct (randomBigIntBelow _ _ _ _) as [[off q]| |] eqn:E;
     cbn [bind]; try discriminate; intros [= <- _];
     apply randomBigIntBelow_range in E; lia).
Qed.

(** The sampler divides by nothing: it cannot throw. *)
Lemma draw_loop_no_throw fuel :
  forall maxExclusive mask byteLen rnd pos,
    draw_loop fuel maxExclusive mask byteLen rnd pos <> RangeError.
Proof.
  induction fuel as [|fuel IH]; intros M mask bl rnd pos; cbn [draw_loop];
    first discriminate.
  destruct (_ <? M); [discriminate | exact (IH _ _ _ _ _)].
Qed.

Lemma randomBigIntInRange_no_throw fuel min max rnd pos :
  randomBigIntInRange fuel min max rnd pos <> RangeError.
Proof.
  unfold randomBigIntInRange, randomBigIntBelow.
  destruct (max <? min);
    match goal with
    | |- context [?x <=? 0] => destruct (x <=? 0)
    end; cbn [bind]; try discriminate;
    match goal with
    | |- context [draw_loop ?f ?m ?k ?b ?r ?q] =>
        pose proof (@draw_loop_no_throw f m k b r q);
        destruct (draw_loop f m k b r q) as [[? ?]| |]
    end; cbn [bind]; congruence.
Qed.

End Sampler.

(** C9.  For a positive bound, whatever bytes the source delivers, a
    value [randomBigIntBelow] returns lies in [[0, bound)], and it does
    return as soon as one of the draws its budget covers is below the
    bound; for the bound 0 it returns 0 and draws nothing.  A value
    [randomBigIntInRange] returns lies between the two endpoints, which
    may be given in either order. *)
Theorem sampler_ranges :
  (forall fuel bound rnd pos v pos',
      0 < bound ->
      randomBigIntBelow fuel bound rnd pos = Ret (v, pos') ->
      0 <= v < bound)
  /\ (forall fuel bound rnd pos k,
         0 < bound -> (k < fuel)%coq_nat ->
         drawn bound rnd (pos + k * byteLength bound)%nat < bound ->
         exists v pos', randomBigIntBelow fuel bound rnd pos = Ret (v, pos'))
  /\ (forall fuel rnd pos, randomBigIntBelow fuel 0 rnd pos = Ret (0, pos))
  /\ (forall fuel min max rnd pos v pos',
         randomBigIntInRange fuel min max rnd pos = Ret (v, pos') ->
         Z.min min max <= v <= Z.max min max)
  /\ (forall fuel min max rnd pos,
         randomBigIntInRange fuel max min rnd pos
         = randomBigIntInRange fuel min max rnd pos).
Proof.
  split; [exact randomBigIntBelow_range|]. split.
  { intros fuel bound rnd pos k Hb Hk Hd. unfold randomBigIntBelow.
    destruct (Z.leb_spec bound 0); first lia.
    exact (draw_loop_returns Hk Hd). }
  split; [reflexivity|]. split; [exact randomBigIntInRange_range|].
  intros fuel min max rnd pos. unfold randomBigIntInRange.
  destruct (Z.ltb_spec min max), (Z.ltb_spec max min); try lia; try reflexivity.
  by replace max with min by lia.
Qed.

Lemma sampler_ranges_witness :
  randomBigIntBelow 3 10 zeros 0 = Ret (0, 1%nat)
  /\ 0 <= 0 < 10
  /\ (exists v pos', randomBigIntBelow 1 1000 zeros 4 = Ret (v, pos'))
  /\ randomBigIntBelow 3 10 ones 0 = OutOfFuel
  /\ randomBigIntInRange 1 7 3 zeros 0 = Ret (3, 1%nat)
  /\ Z.min 7 3 <= 3 <= Z.max 7 3.
Proof.
  split; [reflexivity|]. split.
  { apply (proj1 sampler_ranges 3%nat 10 zeros 0%nat 0 1%nat);
      [lia | reflexivity]. }
  split.
  { apply (proj1 (proj2 sampler_ranges) 1%nat 1000 zeros 4%nat 0%nat);
      [lia | lia | by vm_compute]. }
  split; [reflexivity|]. split; [reflexivity|].
  apply (proj1 (proj2 (proj2 (proj2 sampler_ranges)))
           1%nat 7 3 zeros 0%nat 3 1%nat).
  reflexivity.
Defined.

(** ** The prime search *)

Section PrimeSearch.

Lemma holds_from_spec f count :
  forall lo n, holds_from f lo count ->
               lo <= n < lo + Z.of_nat count -> f n.
Proof.
  induction count as [|count IH]; intros lo n; first lia.
  cbn [holds_from]. move/andP => [Hlo Hrest] Hn.
  destruct (Z.eq_dec n lo) as [->|Hne]; first exact Hlo.
  apply (IH (lo + 1)); [exact Hrest | lia].
Qed.

(** Between 401 and 1999 the test accepts primes only. *)
Lemma accepted_is_prime_401_1999 n :
  401 <= n <= 1999 -> isProbablePrime n = Ret true -> Znumtheory.prime n.
Proof.
  intros Hn Hpr. apply divisor_free_prime.
  assert (Hall : holds_from verdict_sound 401 1599) by (by vm_compute).
  pose proof (@holds_from_spec verdict_sound 1599 401 n Hall ltac:(lia)) as H.
  unfold verdict_sound in H. rewrite Hpr in H. exact H.
Qed.

Lemma normalizeRange_spec minP maxP :
  let lo := (normalizeRange minP maxP).1 in
  let hi := (normalizeRange minP maxP).2 in
  5 <= lo <= hi /\ lo mod 2 = 1 /\ hi mod 2 = 1.
Proof.
  unfold normalizeRange. rewrite !land_1.
  set (hi0 := if maxP <? 5 then 5 else maxP).
  set (lo0 := if minP <? 5 then 5 else minP).
  assert (H5 : 5 <= hi0 /\ 5 <= lo0).
  { unfold hi0, lo0.
    destruct (Z.ltb_spec maxP 5), (Z.ltb_spec minP 5); lia. }
  pose proof (Z.mod_pos_bound lo0 2 ltac:(lia)) as Hl.
  pose proof (Z.mod_pos_bound hi0 2 ltac:(lia)) as Hh.
  assert (El : (lo0 + 1) mod 2 = (lo0 mod 2 + 1) mod 2)
    by (symmetry; apply Z.add_mod_idemp_l; lia).
  assert (Eh : (hi0 - 1) mod 2 = (hi0 mod 2 + 1) mod 2).
  { replace (hi0 - 1) with (hi0 + 1 + (-1) * 2) by ring.
    rewrite -> Z.mod_add by lia.
    symmetry; apply Z.add_mod_idemp_l; lia. }
  destruct (Z.eqb_spec (lo0 mod 2) 0) as [El0|El1];
    destruct (Z.eqb_spec (hi0 mod 2) 0) as [Eh0|Eh1];
    match goal with
    | |- context [?x >? ?y] => destruct (Z.gtb_spec x y)
    end; cbn [fst snd];
    rewrite ?El ?Eh ?El0 ?Eh0; cbn;
    pose proof (Z_div_mod_eq_full hi0 2); pose proof (Z_div_mod_eq_full lo0 2);
    lia.
Qed.

(** The randomised scan: with a budget of at least [limit - tries]
    rounds it ends, and a candidate it returns passed the test, is odd
    and lies within the bounds. *)
Lemma scan_loop_spec fuel :
  forall tries limit candidate minP maxP,
    limit - tries <= Z.of_nat fuel ->
    minP <= candidate <= maxP -> candidate mod 2 = 1 -> minP mod 2 = 1 ->
    exists r,
      scan_loop fuel tries limit candidate minP maxP = Ret r
      /\ forall c, r = Some c ->
                   minP <= c <= maxP /\ c mod 2 = 1
                   /\ isProbablePrime c = Ret true.
Proof.
  induction fuel as [|fuel IH];
    intros tries limit candidate minP maxP Hf Hc Hodd Hmin;
    cbn [scan_loop].
  - destruct (Z.ltb_spec tries limit); first lia.
    by exists None.
  - destruct (Z.ltb_spec tries limit); last by exists None.
    destruct (isProbablePrime_total candidate) as [[|] Hpr];
      rewrite Hpr; cbn [bind].
    + exists (Some candidate). split; [reflexivity|].
      by intros c [= <-].
    + apply IH; [lia | | | exact Hmin].
      * destruct (Z.gtb_spec (candidate + 2) maxP); lia.
      * destruct (Z.gtb_spec (candidate + 2) maxP); first exact Hmin.
        replace (candidate + 2) with (candidate + 1 * 2) by ring.
        rewrite -> Z.mod_add by lia. exact Hodd.
Qed.

(** The ascending scan: with a budget of at least [(maxP - n) / 2 + 1]
    rounds it ends; what it returns passed the test, and it returns
    nothing only if no [n + 2 k] up to [maxP] passes. *)
Lemma fallback_scan_spec fuel :
  forall n maxP,
    maxP - n < 2 * Z.of_nat fuel ->
    exists r,
      fallback_scan fuel n maxP = Ret r
      /\ match r with
         | Some c => n <= c <= maxP /\ (c - n) mod 2 = 0
                     /\ isProbablePrime c = Ret true
         | None => forall m, n <= m <= maxP -> (m - n) mod 2 = 0 ->
                             isProbablePrime m = Ret false
         end.
Proof.
  induction fuel as [|fuel IH]; intros n maxP Hf; cbn [fallback_scan].
  - destruct (Z.leb_spec n maxP); first lia.
    exists None. split; [reflexivity | intros; lia].
  - destruct (Z.leb_spec n maxP) as [Hle|Hgt];
      last by exists None; split; [reflexivity | intros; lia].
    destruct (isProbablePrime_total n) as [[|] Hpr]; rewrite Hpr; cbn [bind].
    + exists (Some n). split; [reflexivity|].
      split; [lia|]. split; [|exact Hpr].
      by rewrite Z.sub_diag.
    + destruct (IH (n + 2) maxP ltac:(lia)) as (r & -> & Hr).
      exists r. split; [reflexivity|].
      destruct r as [c|].
      * destruct Hr as (Hc & Hm & Hp). split; [lia|]. split; [|exact Hp].
        replace (c - n) with (c - (n + 2) + 1 * 2) by ring.
        rewrite -> Z.mod_add by lia. exact Hm.
      * intros m Hm Hpar.
        destruct (Z.eq_dec m n) as [->|Hne]; first exact Hpr.
        assert (m <> n + 1).
        { intros ->. replace (n + 1 - n) with 1 in Hpar by ring.
          discriminate. }
        apply Hr; first lia.
        replace (m - (n + 2)) with (m - n + (-1) * 2) by ring.
        rewrite -> Z.mod_add by lia. exact Hpar.
Qed.

(** What [randomPrimeInRange] returns once the sampler has returned the
    starting candidate. *)
Lemma randomPrimeInRange_spec fuel minP maxP rnd pos :
  let lo := (normalizeRange minP maxP).1 in
  let hi := (normalizeRange minP maxP).2 in
  match randomBigIntInRange fuel lo hi rnd pos with
  | Ret (_, pos') =>
      exists r,
        randomPrimeInRange fuel minP maxP rnd pos = Ret (r, pos')
        /\ ((lo <= r <= hi /\ r mod 2 = 1 /\ isProbablePrime r = Ret true)
            \/ (r = 101
                /\ forall n, lo <= n <= hi -> n mod 2 = 1 ->
                             isProbablePrime n = Ret false))
  | RangeError => randomPrimeInRange fuel minP maxP rnd pos = RangeError
  | OutOfFuel => randomPrimeInRange fuel minP maxP rnd pos = OutOfFuel
  end.
Proof.
  pose proof (normalizeRange_spec minP maxP) as (Hrange & Hlo & Hhi).
  unfold randomPrimeInRange.
  destruct (normalizeRange minP maxP) as [lo hi]. cbn [fst snd] in *.
  destruct (randomBigIntInRange fuel lo hi rnd pos) as [[c pos']| |] eqn:Es;
    cbn [bind]; try reflexivity.
  apply randomBigIntInRange_range in Es.
  rewrite land_1.
  set (candidate := if c mod 2 =? 0 then c + 1 else c).
  assert (Hc : lo <= candidate <= hi /\ candidate mod 2 = 1).
  { unfold candidate.
    pose proof (Z.mod_pos_bound c 2 ltac:(lia)).
    pose proof (Z_div_mod_eq_full c 2).
    pose proof (Z_div_mod_eq_full hi 2).
    destruct (Z.eqb_spec (c mod 2) 0) as [E0|E1]; [|lia].
    split; [lia|].
    rewrite <- Z.add_mod_idemp_l by lia. by rewrite E0. }
  unfold bquot. cbn [Z.eqb bind].
  rewrite -> Z.quot_div_nonneg by lia.
  set (limit := (hi - lo) / 2 + 2).
  assert (Hlimit : 2 * limit > hi - lo /\ 0 <= limit).
  { unfold limit. pose proof (Z_div_mod_eq_full (hi - lo) 2).
    pose proof (Z.mod_pos_bound (hi - lo) 2 ltac:(lia)). lia. }
  destruct (@scan_loop_spec (Z.to_nat limit) 0 limit candidate lo hi)
    as (found & -> & Hfound); try lia.
  cbn [bind]. destruct found as [r|].
  { exists r. split; [reflexivity|]. left. by apply Hfound. }
  destruct (@fallback_scan_spec (Z.to_nat limit) lo hi ltac:(lia))
    as (found & -> & Hfound').
  cbn [bind]. destruct found as [r|].
  - exists r. split; [reflexivity|]. left.
    destruct Hfound' as (Hr & Hpar & Hpr). split; [exact Hr|].
    split; [|exact Hpr].
    pose proof (Z_div_mod_eq_full (r - lo) 2).
    pose proof (Z_div_mod_eq_full lo 2).
    replace r with (1 + ((r - lo) / 2 + lo / 2) * 2) by lia.
    by rewrite -> Z.mod_add by lia.
  - exists 101. split; [reflexivity|]. right. split; [reflexivity|].
    intros n Hn Hodd. apply Hfound'; first exact Hn.
    pose proof (Z_div_mod_eq_full n 2).
    pose proof (Z_div_mod_eq_full lo 2).
    replace (n - lo) with (0 + (n / 2 - lo / 2) * 2) by lia.
    by rewrite -> Z.mod_add by lia.
Qed.

(** A value [randomPrimeInRange] returns was accepted within the
    bounds, or is the last resort. *)
Lemma randomPrimeInRange_cases fuel minP maxP rnd pos r pos' :
  randomPrimeInRange fuel minP maxP rnd pos = Ret (r, pos') ->
  let lo := (normalizeRange minP maxP).1 in
  let hi := (normalizeRange minP maxP).2 in
  (lo <= r <= hi /\ r mod 2 = 1 /\ isProbablePrime r = Ret true)
  \/ (r = 101
      /\ forall n, lo <= n <= hi -> n mod 2 = 1 ->
                   isProbablePrime n = Ret false).
Proof.
  intros Hret.
  pose proof (randomPrimeInRange_spec fuel minP maxP rnd pos) as Hs.
  cbv zeta in Hs.
  destruct (randomBigIntInRange _ _ _ _ _) as [[c q]| |];
    rewrite -> Hret in Hs; try discriminate.
  destruct Hs as (r' & [= <- _] & Hr). exact Hr.
Qed.

End PrimeSearch.

(** C8 (as the code has it).  A value [randomPrimeInRange(401, 2000)]
    returns is, whatever the source delivers, an odd prime in
    [[401, 2000]], and it returns one whenever the sampler returns its
    starting candidate.  In general the bounds are first brought to
    [lo <= hi], both odd and at least 5; the function then returns,
    whenever the sampler does, either an odd value of [[lo, hi]] that
    [isProbablePrime] accepts, or 101 when [isProbablePrime] accepts no
    odd value of [[lo, hi]].  (The scan counters are JavaScript numbers:
    ranges are taken short enough for them to be exact.) *)
Theorem randomPrimeInRange_result :
  (forall fuel rnd pos r pos',
      randomPrimeInRange fuel 401 2000 rnd pos = Ret (r, pos') ->
      Znumtheory.prime r /\ 401 <= r <= 2000 /\ Z.odd r = true)
  /\ (forall fuel rnd pos c pos',
         randomBigIntInRange fuel 401 1999 rnd pos = Ret (c, pos') ->
         exists r, randomPrimeInRange fuel 401 2000 rnd pos = Ret (r, pos'))
  /\ (forall fuel minP maxP rnd pos,
         let lo := (normalizeRange minP maxP).1 in
         let hi := (normalizeRange minP maxP).2 in
         hi - lo < 2 ^ 53 ->
         (5 <= lo <= hi /\ Z.odd lo = true /\ Z.odd hi = true)
         /\ (forall c pos',
                randomBigIntInRange fuel lo hi rnd pos = Ret (c, pos') ->
                exists r,
                  randomPrimeInRange fuel minP maxP rnd pos = Ret (r, pos'))
         /\ (forall r pos',
                randomPrimeInRange fuel minP maxP rnd pos = Ret (r, pos') ->
                (lo <= r <= hi /\ Z.odd r = true
                 /\ isProbablePrime r = Ret true)
                \/ (r = 101
                    /\ forall n, lo <= n <= hi -> Z.odd n = true ->
                                 isProbablePrime n = Ret false))).
Proof.
  assert (Hodd : forall n, Z.odd n = true <-> n mod 2 = 1).
  { intros n. rewrite Zmod_odd. by destruct (Z.odd n). }
  pose proof randomPrimeInRange_cases as Hgen.
  split; [|split].
  - intros fuel rnd pos r pos' Hret.
    destruct (Hgen _ _ _ _ _ _ _ Hret) as [(Hr & Hpar & Hpr)|(_ & Hnone)];
      cbn [normalizeRange fst snd Z.ltb Z.compare Pos.compare
           Pos.compare_cont] in *.
    + change (401 <= r <= 1999) in Hr.
      split; [exact (accepted_is_prime_401_1999 Hr Hpr)|].
      split; [lia | by apply Hodd].
    + specialize (Hnone 401 ltac:(by vm_compute) (erefl _)).
      by vm_compute in Hnone.
  - intros fuel rnd pos c pos' Hs.
    pose proof (randomPrimeInRange_spec fuel 401 2000 rnd pos) as H.
    change (normalizeRange 401 2000) with (401, 1999) in H.
    cbv zeta in H. cbn [fst snd] in H. rewrite Hs in H.
    destruct H as (r & Hr & _). by exists r.
  - intros fuel minP maxP rnd pos lo hi _.
    pose proof (normalizeRange_spec minP maxP) as (Hrange & Hlo & Hhi).
    split; [by split; [exact Hrange | split; apply Hodd]|]. split.
    + intros c pos' Hs.
      pose proof (randomPrimeInRange_spec fuel minP maxP rnd pos) as H.
      cbv zeta in H. fold lo hi in H. rewrite Hs in H.
      destruct H as (r & Hr & _). by exists r.
    + intros r pos' Hret.
      destruct (Hgen _ _ _ _ _ _ _ Hret) as [(Hr & Hpar & Hpr)|(-> & Hnone)].
      * left. split; [exact Hr|]. split; [by apply Hodd | exact Hpr].
      * right. split; [reflexivity|]. intros n Hn Hn'.
        apply Hnone; [exact Hn | by apply Hodd].
Qed.

Lemma randomPrimeInRange_result_witness :
  randomPrimeInRange 1 401 2000 zeros 0 = Ret (401, 2%nat)
  /\ Znumtheory.prime 401
  /\ (5 <= 401 <= 1999).
Proof.
  assert (E : randomPrimeInRange 1 401 2000 zeros 0 = Ret (401, 2%nat))
    by (by vm_compute).
  split; [exact E|].
  split; [exact (proj1 (proj1 randomPrimeInRange_result _ _ _ _ _ E))|].
  assert (Hs : (normalizeRange 401 2000).2 - (normalizeRange 401 2000).1 < 2 ^ 53)
    by (by vm_compute).
  exact (proj1 (proj1 (proj2 (proj2 randomPrimeInRange_result)
                         1%nat 401 2000 zeros 0%nat Hs))).
Defined.

(** C8 (counterexample).  The bounds 24 and 28 are brought to 25 and 27,
    neither of which is prime: both scans fail and the value returned,
    101, is not a value of the range searched. *)
Lemma randomPrimeInRange_last_resort :
  normalizeRange 24 28 = (25, 27)
  /\ randomPrimeInRange 1 24 28 zeros 0 = Ret (101, 1%nat)
  /\ ~ (25 <= 101 <= 27)
  /\ (forall fuel rnd pos r pos',
         randomPrimeInRange fuel 24 28 rnd pos = Ret (r, pos') -> r = 101).
Proof.
  split; [reflexivity|]. split; [by vm_compute|]. split; [lia|].
  intros fuel rnd pos r pos' Hret.
  destruct (randomPrimeInRange_cases Hret) as [(Hr & Hodd & Hpr)|(-> & _)];
    last reflexivity.
  change (25 <= r <= 27) in Hr.
  assert (r = 25 \/ r = 26 \/ r = 27) as [->|[->| ->]] by lia;
    by vm_compute in Hpr, Hodd.
Qed.

(** ** Primitive roots modulo a prime *)

Section PrimitiveRootNat.

Import GroupScope.

Variable p : nat.
Hypothesis p_pr : prime p.

Lemma p_gt1 : (1 < p)%N.
Proof. exact: prime_gt1. Qed.

Lemma card_units_prime : #|units_Zp p| = p.-1.
Proof. by rewrite card_units_Zp ?totient_prime // prime_gt0. Qed.

(** Powers in the unit group, read as natural numbers. *)
Lemma unit_expg_nat (u : {unit 'Z_p}) k :
  (u ^+ k == 1) = ((val u : 'Z_p) ^ k %% p == 1 :> nat)%N.
Proof.
  rewrite -val_eqE /= -val_eqE /= unit_Zp_expg /=.
  set v := nat_of_ord _.
  by rewrite Zp_cast ?p_gt1 // [(1 %% p)%N]modn_small ?p_gt1.
Qed.

Lemma order_of_tested (u : {unit 'Z_p}) :
  (forall q, prime q -> (q %| p.-1)%N -> u ^+ (p.-1 %/ q) != 1) ->
  #[u] = p.-1.
Proof.
  move=> Htest; have p_gt1 := p_gt1.
  have Hd : (#[u] %| p.-1)%N.
    by rewrite -card_units_prime order_dvdG // inE.
  apply/eqP; apply/negPn/negP => Hne.
  have p1_gt0 : (0 < p.-1)%N by rewrite -subn1 subn_gt0.
  set m := (p.-1 %/ #[u])%N.
  have Em : (p.-1 = m * #[u])%N by rewrite divnK.
  have m_gt1 : (1 < m)%N.
    rewrite ltn_neqAle; apply/andP; split.
      apply: contra Hne => /eqP Hm1; by rewrite Em -Hm1 mul1n.
    by rewrite divn_gt0 ?order_gt0 // dvdn_leq.
  have q_pr := pdiv_prime m_gt1.
  have q_m := pdiv_dvd m.
  have q_p1 : (pdiv m %| p.-1)%N by rewrite Em dvdn_mulr.
  have := Htest _ q_pr q_p1; rewrite -order_dvdn.
  have -> : (p.-1 %/ pdiv m = (m %/ pdiv m) * #[u])%N.
    by rewrite Em divn_mulAC.
  by rewrite dvdn_mull.
Qed.

Lemma unit_of_nat v : (0 < v < p)%N ->
  exists u : {unit 'Z_p}, (val u : 'Z_p) = v :> nat.
Proof.
  case/andP => v_gt0 v_ltp.
  have Hu : (v%:R : 'Z_p)%R \is a GRing.unit.
    rewrite unitZpE ?p_gt1 // prime_coprime //; apply/negP => /dvdn_leq Hle.
    by move: (Hle v_gt0); rewrite leqNgt v_ltp.
  exists (FinRing.unit 'Z_p Hu).
  by rewrite /= val_Zp_nat ?p_gt1 // modn_small.
Qed.

(** A number below the prime [p] that passes the test on every prime
    factor of [p - 1] has order [p - 1]. *)
Lemma order_test_nat v :
  (0 < v < p)%N ->
  (forall q, prime q -> (q %| p.-1)%N -> (v ^ (p.-1 %/ q) %% p != 1)%N) ->
  forall k, ((v ^ k %% p)%N == 1%N) = (p.-1 %| k)%N.
Proof.
  move=> Hv Htest; have [u Eu] := unit_of_nat Hv.
  have Hord : #[u] = p.-1.
    by apply: order_of_tested => q q_pr q_p1; rewrite unit_expg_nat Eu Htest.
  by move=> k; rewrite -Eu -unit_expg_nat -order_dvdn Hord.
Qed.

(** Primitive roots exist modulo a prime. *)
Lemma primitive_root_nat :
  exists v, (0 < v < p)%N /\
            forall k, ((v ^ k %% p)%N == 1%N) = (p.-1 %| k)%N.
Proof.
  have p_gt1 := p_gt1.
  have /cyclicP[u Eu] := units_Zp_cyclic p_pr.
  have Hord : #[u] = p.-1 by rewrite orderE -Eu card_units_prime.
  exists (val u : 'Z_p); split; last first.
    by move=> k; rewrite -unit_expg_nat -order_dvdn Hord.
  have Hne0 : (val u : 'Z_p) != 0%N :> nat.
    apply/negP => /eqP H0.
    have : u ^+ p.-1 == 1 by rewrite -order_dvdn Hord.
    rewrite unit_expg_nat H0 exp0n ?mod0n //.
    by rewrite -subn1 subn_gt0.
  move: Hne0 (ltn_ord (val u : 'Z_p)); set v := nat_of_ord _.
  by rewrite Zp_cast ?p_gt1 // lt0n => -> ->.
Qed.

End PrimitiveRootNat.

Section NatToZ.

Lemma of_nat_expn v k : Z.of_nat (v ^ k)%N = Z.of_nat v ^ Z.of_nat k.
Proof.
  elim: k => [|k IH]; first by [].
  rewrite expnS Nat2Z.inj_mul IH Nat2Z.inj_succ Z.pow_succ_r //.
  exact: Nat2Z.is_nonneg.
Qed.

Lemma of_nat_modn m d :
  (0 < d)%N -> Z.of_nat (m %% d)%N = Z.of_nat m mod Z.of_nat d.
Proof.
  move=> d_gt0.
  have Hlt : (m %% d < d)%coq_nat by apply/ltP; rewrite ltn_pmod.
  apply: (@Z.mod_unique_pos _ _ (Z.of_nat (m %/ d)%N)); first lia.
  rewrite [in LHS](divn_eq m d) Nat2Z.inj_add Nat2Z.inj_mul. lia.
Qed.

Lemma of_nat_dvdn d m : (d %| m)%N -> (Z.of_nat d | Z.of_nat m).
Proof.
  case/dvdnP => k ->. exists (Z.of_nat k). by rewrite Nat2Z.inj_mul.
Qed.

Lemma dvdn_of_nat d m : (Z.of_nat d | Z.of_nat m) -> (d %| m)%N.
Proof.
  case: d => [|d] [k Hk].
  - have -> : m = 0%N by lia. by [].
  - have Hk0 : 0 <= k by nia.
    apply/dvdnP. exists (Z.to_nat k). apply: Nat2Z.inj.
    by rewrite Nat2Z.inj_mul Z2Nat.id.
Qed.

Lemma of_nat_divn m d :
  (0 < d)%N -> (d %| m)%N -> Z.of_nat (m %/ d)%N = Z.of_nat m / Z.of_nat d.
Proof.
  move=> d_gt0 Hd.
  have Hd0 : (0 < d)%coq_nat by apply/ltP.
  rewrite -[in RHS](divnK Hd) Nat2Z.inj_mul Z.div_mul //. lia.
Qed.

(** The two notions of a prime number agree. *)
Lemma prime_nat_of_Z p : Znumtheory.prime (Z.of_nat p) -> prime p.
Proof.
  move=> Hp. have Hp2 := prime_ge_2 _ Hp.
  apply/primeP; split; first by apply/ltP; lia.
  move=> d /of_nat_dvdn Hd.
  have [H|[H|[H|H]]] := prime_divisors _ Hp _ Hd; try lia.
  - have -> : d = 1%N by lia. by [].
  - have -> : d = p by lia. by rewrite /= eqxx orbT.
Qed.

Lemma prime_Z_of_nat q : prime q -> Znumtheory.prime (Z.of_nat q).
Proof.
  move=> q_pr. apply prime_alt. split.
    have /ltP := prime_gt1 q_pr. lia.
  move=> n Hn Hdiv.
  have Hn' : n = Z.of_nat (Z.to_nat n) by rewrite Z2Nat.id; lia.
  rewrite Hn' in Hdiv. move/dvdn_of_nat: Hdiv => Hdv.
  move/primeP: q_pr => [_ Hq].
  have /orP [/eqP Hd|/eqP Hd] := Hq _ Hdv; lia.
Qed.

Lemma of_nat_pred p : (0 < p)%N -> Z.of_nat p.-1 = Z.of_nat p - 1.
Proof. case: p => [|p] // _. rewrite Nat2Z.inj_succ /=. lia. Qed.

Lemma primitive_root_of_nat p v :
  prime p ->
  (forall k, ((v ^ k %% p)%N == 1%N) = (p.-1 %| k)%N) ->
  primitive_root (Z.of_nat p) (Z.of_nat v).
Proof.
  move=> p_pr Hv k Hk.
  have p_gt0 := prime_gt0 p_pr.
  rewrite -(Z2Nat.id k) // -of_nat_expn -of_nat_modn // -of_nat_pred //.
  split.
  - move=> H1. apply: of_nat_dvdn. rewrite -Hv. apply/eqP. lia.
  - move/dvdn_of_nat. rewrite -Hv => /eqP ->. by [].
Qed.

Lemma primitive_root_exists P :
  Znumtheory.prime P -> exists g, 1 <= g < P /\ primitive_root P g.
Proof.
  move=> HP. have HP2 := prime_ge_2 _ HP.
  have EP : P = Z.of_nat (Z.to_nat P) by rewrite Z2Nat.id; lia.
  rewrite EP in HP *. have p_pr := prime_nat_of_Z HP.
  have [v [/andP [/ltP v_gt0 /ltP v_ltp] Hv]] := primitive_root_nat p_pr.
  exists (Z.of_nat v). split; first lia.
  exact: primitive_root_of_nat.
Qed.

Lemma order_test_sound P g :
  Znumtheory.prime P -> 1 <= g < P ->
  (forall q, Znumtheory.prime q -> (q | P - 1) ->
             g ^ ((P - 1) / q) mod P <> 1) ->
  primitive_root P g.
Proof.
  move=> HP Hg Htest. have HP2 := prime_ge_2 _ HP.
  have EP : P = Z.of_nat (Z.to_nat P) by rewrite Z2Nat.id; lia.
  have Eg : g = Z.of_nat (Z.to_nat g) by rewrite Z2Nat.id; lia.
  rewrite EP in HP Htest Hg *. rewrite Eg in Htest Hg *.
  have p_pr := prime_nat_of_Z HP. have p_gt0 := prime_gt0 p_pr.
  apply: primitive_root_of_nat => //.
  apply: order_test_nat => //.
    apply/andP; split; apply/ltP; lia.
  move=> q q_pr q_dvd. apply/eqP => H1.
  apply: (Htest (Z.of_nat q)).
  - exact: prime_Z_of_nat.
  - rewrite -of_nat_pred //. exact: of_nat_dvdn.
  - rewrite -of_nat_pred // -of_nat_divn ?prime_gt0 //.
    by rewrite -of_nat_expn -of_nat_modn // H1.
Qed.

End NatToZ.

(** ** primeFactorsDistinct finds the prime factors *)

Section Factors.

Lemma includes_In out x : includes out x <-> List.In x out.
Proof.
  unfold includes. elim: out => [|y out IH] /=; first by [].
  split.
  - case/orP => [/Z.eqb_eq ->|/IH H]; [by left | by right].
  - case=> [->|/IH H]; apply/orP; [left; exact: Z.eqb_refl | by right].
Qed.

Lemma In_push out x q : List.In q (push out x) <-> List.In q out \/ q = x.
Proof.
  unfold push. elim: out => [|y out IH] /=.
  - split; [case=> // ->; by right | case=> // ->; by left].
  - rewrite IH. split; [case=> [H|[H|H]]|case=> [[H|H]|H]]; tauto.
Qed.

(** [if (!out.includes(x)) out.push(x)] adds [x] to the members. *)
Lemma In_added out x q :
  List.In q (if includes out x then out else push out x)
  <-> List.In q out \/ q = x.
Proof.
  case E: (includes out x); last exact: In_push.
  move/includes_In: E => E.
  split; [by left | case=> [//|->//]].
Qed.

Lemma bquot_pos x y : 0 <= x -> 0 < y -> bquot x y = Ret (x / y).
Proof.
  intros Hx Hy. unfold bquot.
  destruct (Z.eqb_spec y 0); first lia.
  rewrite -> Z.quot_div_nonneg by lia. reflexivity.
Qed.

(** The loop that divides the twos out. *)
Lemma twos_loop_spec fuel :
  forall out x,
    0 < x < 2 ^ Z.of_nat fuel ->
    exists out' x',
      twos_loop fuel out x = Ret (out', x')
      /\ 0 < x' /\ x' mod 2 = 1 /\ (x' | x)
      /\ (forall q, List.In q out' <->
                    List.In q out \/ (q = 2 /\ x mod 2 = 0))
      /\ (forall q, Znumtheory.prime q -> (q | x) -> q = 2 \/ (q | x')).
Proof.
  induction fuel as [|fuel IH]; intros out x Hx; first by (simpl in Hx; lia).
  cbn [twos_loop]. rewrite -> brem_pos by lia. cbn [bind].
  pose proof (Z.mod_pos_bound x 2 ltac:(lia)) as Hm.
  pose proof (Z_div_mod_eq_full x 2) as Ex.
  destruct (Z.eqb_spec (x mod 2) 0) as [Hev|Hodd].
  - rewrite -> bquot_pos by lia. cbn [bind].
    rewrite -> Nat2Z.inj_succ, -> Z.pow_succ_r in Hx by lia.
    destruct (IH (if includes out 2 then out else push out 2) (x / 2)
                 ltac:(lia))
      as (out' & x' & -> & Hx' & Hodd' & Hdiv & Hin & Hpr).
    exists out', x'. split; [reflexivity|]. split; [exact Hx'|].
    split; [exact Hodd'|].
    assert (Hhalf : (x / 2 | x)) by (exists 2; lia).
    split; [exact (Z.divide_trans _ _ _ Hdiv Hhalf)|]. split.
    + intros q. rewrite Hin In_added. tauto.
    + intros q Hq Hqx.
      assert (Hqx' : (q | 2 * (x / 2))) by (replace (2 * (x / 2)) with x by lia; exact Hqx).
      destruct (prime_mult _ Hq _ _ Hqx') as [H2|Hh].
      * left. exact (prime_div_prime _ _ Hq prime_2 H2).
      * exact (Hpr q Hq Hh).
  - exists out, x. split; [reflexivity|]. split; [lia|]. split; [lia|].
    split; [exact (Z.divide_refl x)|]. split.
    + intros q. split; [by left | case=> [//|[_ H]]; lia].
    + intros q _ Hqx. by right.
Qed.

(** The loop over the odd trial divisors [f]: no divisor of [x] other
    than 1 lies below [f]. *)
Lemma odd_loop_spec fuel :
  forall out x f,
    0 < x -> x mod 2 = 1 -> 3 <= f -> f mod 2 = 1 ->
    (forall d, 1 < d -> (d | x) -> f <= d) ->
    (x < f * f \/ x - f < Z.of_nat fuel) ->
    exists out' x',
      odd_loop fuel out x f = Ret (out', x')
      /\ 0 < x' /\ (x' | x)
      /\ (x' = 1 \/ Znumtheory.prime x')
      /\ (forall q, List.In q out' ->
                    List.In q out \/ (Znumtheory.prime q /\ (q | x)))
      /\ (forall q, List.In q out -> List.In q out')
      /\ (forall q, Znumtheory.prime q -> (q | x) ->
                    List.In q out' \/ q = x').
Proof.
  induction fuel as [|fuel IH]; intros out x f Hx Hodd Hf Hfodd Hmin Hfuel;
    cbn [odd_loop].
  all: destruct (Z.leb_spec (f * f) x) as [Hle|Hgt];
    [|
     (* the loop is left: [x] has no proper divisor *)
     exists out, x; split; [reflexivity|]; split; [exact Hx|];
     split; [exact (Z.divide_refl x)|];
     assert (Hnone : forall d, 1 < d < x -> ~ (d | x));
     [ intros d Hd [m Hm];
       assert (1 < m) by nia;
       assert (Hdx : (d | x)) by (exists m; exact Hm);
       assert (Hmx : (m | x)) by (exists d; lia);
       pose proof (Hmin d ltac:(lia) Hdx);
       pose proof (Hmin m ltac:(lia) Hmx);
       nia
     | split;
       [ destruct (Z.eq_dec x 1) as [->|Hne]; [by left|];
         right; apply prime_alt; split; [lia | exact Hnone]
       | split; [by intros q Hq; left|]; split; [by []|];
         intros q Hq Hqx; right;
         pose proof (prime_ge_2 _ Hq);
         pose proof (Z.divide_pos_le _ _ Hx Hqx);
         destruct (Z.eq_dec q x) as [|Hne]; [assumption|];
         exfalso; apply (Hnone q); [lia | exact Hqx] ] ] ].
  - (* no budget left although the loop goes on: excluded *)
    cbn in Hfuel. pose proof (Hmin x ltac:(nia) (Z.divide_refl x)). nia.
  - rewrite -> brem_pos by lia. cbn [bind].
    pose proof (Z_div_mod_eq_full x f) as Ex.
    pose proof (Z.mod_pos_bound x f ltac:(lia)) as Hm.
    rewrite -> Nat2Z.inj_succ in Hfuel.
    destruct (Z.eqb_spec (x mod f) 0) as [Hdiv|Hndiv].
    + rewrite -> bquot_pos by lia. cbn [bind].
      assert (Hxf : x = f * (x / f)) by lia.
      assert (Hq0 : 0 < x / f) by nia.
      assert (Hfx : (f | x)) by (exists (x / f); lia).
      assert (Hqx : (x / f | x)) by (exists f; lia).
      assert (Hfprime : Znumtheory.prime f).
      { apply prime_alt. split; [lia|]. intros d Hd Hdf.
        pose proof (Hmin d ltac:(lia) (Z.divide_trans _ _ _ Hdf Hfx)). lia. }
      destruct (IH (if includes out f then out else push out f) (x / f) f)
        as (out' & x' & -> & Hx' & Hdiv' & Hpr' & Hsound & Hmono & Hcompl);
        try assumption.
      * pose proof (Z.mod_pos_bound (x / f) 2 ltac:(lia)).
        destruct (Z.eq_dec ((x / f) mod 2) 0) as [E|E]; [|lia].
        apply Z.mod_divide in E; [|lia].
        pose proof (Z.divide_trans _ _ _ E Hqx) as H2.
        apply Z.mod_divide in H2; lia.
      * intros d Hd Hdq. exact (Hmin d Hd (Z.divide_trans _ _ _ Hdq Hqx)).
      * right. nia.
      * exists out', x'. split; [reflexivity|]. split; [exact Hx'|].
        split; [exact (Z.divide_trans _ _ _ Hdiv' Hqx)|].
        split; [exact Hpr'|]. split; [|split].
        -- intros q Hq. destruct (Hsound q Hq) as [Hin|[Hqp Hqd]].
           ++ apply In_added in Hin. destruct Hin as [Hin| ->];
                [by left | by right].
           ++ right. split; [exact Hqp|].
              exact (Z.divide_trans _ _ _ Hqd Hqx).
        -- intros q Hq. apply Hmono. apply In_added. by left.
        -- intros q Hq Hqdx. rewrite -> Hxf in Hqdx.
           destruct (prime_mult _ Hq _ _ Hqdx) as [Hqf|Hqq].
           ++ left. apply Hmono. apply In_added. right.
              exact (prime_div_prime _ _ Hq Hfprime Hqf).
           ++ exact (Hcompl q Hq Hqq).
    + destruct (IH out x (f + 2)) as
          (out' & x' & -> & Hrest); try assumption; try lia.
      * replace (f + 2) with (f + 1 * 2) by ring.
        rewrite -> Z.mod_add by lia. exact Hfodd.
      * intros d Hd Hdx. pose proof (Hmin d Hd Hdx) as Hfd.
        destruct (Z.eq_dec d f) as [->|Hne].
        { apply Z.mod_divide in Hdx; lia. }
        destruct (Z.eq_dec d (f + 1)) as [->|Hne'].
        { assert (H2 : (2 | f + 1)).
          { apply Z.mod_divide; [lia|].
            rewrite <- Z.add_mod_idemp_l by lia. by rewrite Hfodd. }
          pose proof (Z.divide_trans _ _ _ H2 Hdx) as H2x.
          apply Z.mod_divide in H2x; lia. }
        lia.
      * exists out', x'. split; [reflexivity | exact Hrest].
Qed.

(** The factors found are the prime divisors of [n], all of them. *)
Lemma primeFactorsDistinct_spec n :
  0 < n ->
  exists factors,
    primeFactorsDistinct n = Ret factors
    /\ forall q, List.In q factors <-> Znumtheory.prime q /\ (q | n).
Proof.
  intros Hn. unfold primeFactorsDistinct.
  destruct (@twos_loop_spec (bits (Z.abs n)) [::] n)
    as (out1 & x1 & -> & Hx1 & Hodd1 & Hdiv1 & Hin1 & Hpr1).
  { split; [exact Hn|]. rewrite -> Z.abs_eq by lia. apply bits_bound; lia. }
  cbn [bind].
  assert (Hmin : forall d, 1 < d -> (d | x1) -> 3 <= d).
  { intros d Hd Hdx. destruct (Z.eq_dec d 2) as [->|Hne]; [|lia].
    apply Z.mod_divide in Hdx; lia. }
  destruct (@odd_loop_spec (Z.to_nat x1) out1 x1 3 Hx1 Hodd1 (Z.le_refl 3)
              (erefl _) Hmin ltac:(lia))
    as (out2 & x2 & -> & Hx2 & Hdiv2 & Hpr2 & Hsound & Hmono & Hcompl).
  cbn [bind]. eexists. split; [reflexivity|].
  assert (Hdiv : (x2 | n)) by exact (Z.divide_trans _ _ _ Hdiv2 Hdiv1).
  intros q. split.
  - intros Hq.
    assert (Hq' : List.In q out2 \/ (1 < x2 /\ q = x2)).
    { destruct (Z.gtb_spec x2 1); [|by left].
      apply In_added in Hq. destruct Hq; [by left | by right]. }
    destruct Hq' as [Hq2|[Hgt ->]].
    + destruct (Hsound q Hq2) as [Hq1|[Hqp Hqd]].
      * apply Hin1 in Hq1. destruct Hq1 as [[]|[-> Hev]].
        split; [exact prime_2|]. apply Z.mod_divide; lia.
      * split; [exact Hqp|]. exact (Z.divide_trans _ _ _ Hqd Hdiv1).
    + split; [|exact Hdiv]. destruct Hpr2; [lia | assumption].
  - intros [Hqp Hqd].
    assert (Hq2 : List.In q out2 \/ q = x2).
    { destruct (Hpr1 q Hqp Hqd) as [->|Hqx1].
      - left. apply Hmono, Hin1. right. split; [reflexivity|].
        apply Z.mod_divide in Hqd; lia.
      - exact (Hcompl q Hqp Hqx1). }
    pose proof (prime_ge_2 _ Hqp).
    destruct (Z.gtb_spec x2 1).
    + apply In_added. exact Hq2.
    + destruct Hq2; [assumption | lia].
Qed.

End Factors.

(** ** The search for a generator *)

Section Generator.

Variable P : Z.
Hypothesis P_prime : Znumtheory.prime P.
Hypothesis P_ge3 : 3 <= P.

Variable factors : seq Z.
Hypothesis factors_spec :
  forall q, List.In q factors <-> Znumtheory.prime q /\ (q | P - 1).

(** The inner loop answers whether the candidate passes the test. *)
Lemma orderTest_spec gCand :
  exists ok,
    orderTest P (P - 1) gCand factors = Ret ok
    /\ (ok = true <-> passes_test P gCand).
Proof.
  unfold passes_test.
  assert (H : forall fs,
             (forall q, List.In q fs -> 2 <= q) ->
             exists ok,
               orderTest P (P - 1) gCand fs = Ret ok
               /\ (ok = true <->
                   forall q, List.In q fs ->
                             gCand ^ ((P - 1) / q) mod P <> 1)).
  { induction fs as [|q fs IH]; intros Hfs.
    - exists true. split; [reflexivity|]. by split.
    - cbn [orderTest].
      pose proof (Hfs q (or_introl (erefl _))) as Hq.
      rewrite -> bquot_pos by lia. cbn [bind].
      assert (0 <= (P - 1) / q) by (apply Z.div_pos; lia).
      rewrite -> modPow_value by lia. cbn [bind].
      destruct (Z.eqb_spec (gCand ^ ((P - 1) / q) mod P) 1) as [E|E].
      + exists false. split; [reflexivity|]. split; [discriminate|].
        intros Hall. exfalso. exact (Hall q (or_introl (erefl _)) E).
      + destruct IH as (ok & -> & Hok).
        { intros q' Hq'. apply Hfs. by right. }
        exists ok. split; [reflexivity|]. rewrite Hok. split.
        * intros Hall q' [<-|Hq']; [exact E | exact (Hall q' Hq')].
        * intros Hall q' Hq'. apply Hall. by right. }
  destruct (H factors) as (ok & Hr & Hok).
  { intros q Hq. apply factors_spec in Hq. exact (prime_ge_2 _ (proj1 Hq)). }
  exists ok. split; [exact Hr|]. rewrite Hok. split.
  - intros Hall q Hqp Hqd. apply Hall. apply factors_spec. by split.
  - intros Hall q Hq. apply factors_spec in Hq. destruct Hq. by apply Hall.
Qed.

(** A candidate below [P] that passes the test has order [P - 1]. *)
Lemma passes_test_order g :
  1 <= g < P -> passes_test P g -> 2 <= g /\ primitive_root P g.
Proof.
  intros Hg Hpass.
  pose proof (order_test_sound P_prime Hg Hpass) as Hroot.
  split; [|exact Hroot].
  destruct (Z.eq_dec g 1) as [->|]; [|lia].
  assert (Hd : (P - 1 | 1)).
  { apply (Hroot 1 ltac:(lia)). rewrite Z.pow_1_r. apply Z.mod_small. lia. }
  apply Z.divide_pos_le in Hd; lia.
Qed.

(** An element of order [P - 1] passes the test. *)
Lemma primitive_root_passes g : primitive_root P g -> passes_test P g.
Proof.
  intros Hroot q Hqp [m Hm] E.
  pose proof (prime_ge_2 _ Hqp) as Hq.
  assert (Em : (P - 1) / q = m) by (rewrite Hm; apply Z.div_mul; lia).
  rewrite Em in E.
  assert (Hm0 : 0 < m < P - 1) by nia.
  pose proof (proj1 (Hroot m ltac:(lia)) E) as Hd.
  apply Z.divide_pos_le in Hd; lia.
Qed.

(** From 5 on there is a generator among the candidates [2 .. P - 2]. *)
Lemma generator_in_range :
  5 <= P -> exists g, 2 <= g <= P - 2 /\ passes_test P g.
Proof.
  intros H5. destruct (primitive_root_exists P_prime) as (g & Hg & Hroot).
  exists g. split; [|exact (primitive_root_passes Hroot)].
  destruct (passes_test_order Hg (primitive_root_passes Hroot)) as [Hg2 _].
  split; [exact Hg2|].
  destruct (Z.eq_dec g (P - 1)) as [->|]; [|lia].
  assert (Hd : (P - 1 | 2)).
  { apply (Hroot 2 ltac:(lia)).
    replace ((P - 1) ^ 2) with (1 + (P - 2) * P) by ring.
    rewrite -> Z.mod_add by lia. apply Z.mod_small. lia. }
  apply Z.divide_pos_le in Hd; lia.
Qed.

(** The ascending search returns the first candidate that passes. *)
Lemma linear_search_spec fuel :
  forall gCand,
    P - 1 - gCand <= Z.of_nat fuel ->
    exists found,
      linear_search fuel gCand P (P - 1) factors = Ret found
      /\ match found with
         | Some g => gCand <= g <= P - 2 /\ passes_test P g
         | None => forall g, gCand <= g <= P - 2 -> ~ passes_test P g
         end.
Proof.
  induction fuel as [|fuel IH]; intros gCand Hfuel; cbn [linear_search].
  - destruct (Z.leb_spec gCand (P - 2)); first lia.
    exists None. split; [reflexivity | intros; lia].
  - destruct (Z.leb_spec gCand (P - 2));
      last by exists None; split; [reflexivity | intros; lia].
    destruct (orderTest_spec gCand) as ([|] & -> & Hok); cbn [bind].
    + exists (Some gCand). split; [reflexivity|]. split; [lia|].
      by apply Hok.
    + destruct (IH (gCand + 1) ltac:(lia)) as (found & -> & Hfound).
      exists found. split; [reflexivity|].
      destruct found as [g|].
      * destruct Hfound. split; [lia | assumption].
      * intros g Hg. destruct (Z.eq_dec g gCand) as [->|].
        -- intros Hp. apply Hok in Hp. discriminate.
        -- apply Hfound. lia.
Qed.

(** The randomised attempts: a candidate they return passes the test and
    lies below [P]; they end whenever the sampler answers each draw. *)
Lemma attempt_loop_spec attempts fuel rnd :
  forall pos,
    match attempt_loop attempts fuel P (P - 1) factors rnd pos with
    | Ret (Some g, _) => 1 <= g < P /\ passes_test P g
    | Ret (None, _) => True
    | RangeError => False
    | OutOfFuel =>
        exists pos0, randomBigIntInRange fuel 2 (P - 2) rnd pos0 = OutOfFuel
    end.
Proof.
  induction attempts as [|attempts IH]; intros pos; cbn [attempt_loop];
    first by [].
  destruct (randomBigIntInRange fuel 2 (P - 2) rnd pos)
    as [[gCand pos']| |] eqn:Es; cbn [bind].
  - apply randomBigIntInRange_range in Es.
    destruct (orderTest_spec gCand) as ([|] & -> & Hok); cbn [bind].
    + split; [lia|]. by apply Hok.
    + exact (IH pos').
  - exact (randomBigIntInRange_no_throw Es).
  - by exists pos.
Qed.

End Generator.

(** C7.  For a prime [p >= 3], trial division returns the prime factors
    of [p - 1], all of them; a value [g] that [findGenerator] returns
    lies in [[2, p - 1]], gives [modPow(g, (p-1)/q, p) != 1] for each of
    these factors [q], and has multiplicative order [p - 1] modulo [p];
    [findGenerator] never throws, and it returns whenever the sampler
    answers each of its draws. *)
Theorem findGenerator_order (p : Z) :
  Znumtheory.prime p -> 3 <= p ->
  forall fuel rnd pos,
    exists factors,
      primeFactorsDistinct (p - 1) = Ret factors
      /\ (forall q, List.In q factors <-> Znumtheory.prime q /\ (q | p - 1))
      /\ (forall g pos',
             findGenerator fuel p rnd pos = Ret (g, pos') ->
             2 <= g <= p - 1
             /\ orderTest p (p - 1) g factors = Ret true
             /\ (forall q, List.In q factors ->
                           exists x, modPow g ((p - 1) / q) p = Ret x
                                     /\ x <> 1)
             /\ primitive_root p g)
      /\ findGenerator fuel p rnd pos <> RangeError
      /\ ((forall pos0, exists v pos1,
              randomBigIntInRange fuel 2 (p - 2) rnd pos0 = Ret (v, pos1)) ->
          exists g pos', findGenerator fuel p rnd pos = Ret (g, pos')).
Proof.
  intros Hp Hp3 fuel rnd pos.
  destruct (@primeFactorsDistinct_spec (p - 1) ltac:(lia))
    as (factors & Hfs & Hspec).
  exists factors. split; [exact Hfs|]. split; [exact Hspec|].
  (* what a returned candidate satisfies once it passes the test *)
  assert (Hgood : forall g, 1 <= g < p -> passes_test p g ->
            2 <= g <= p - 1
            /\ orderTest p (p - 1) g factors = Ret true
            /\ (forall q, List.In q factors ->
                          exists x, modPow g ((p - 1) / q) p = Ret x
                                    /\ x <> 1)
            /\ primitive_root p g).
  { intros g Hg Hpass.
    destruct (passes_test_order Hp Hp3 Hg Hpass) as [Hg2 Hroot].
    split; [lia|]. split.
    - destruct (orderTest_spec Hp3 Hspec g) as (ok & -> & Hok).
      f_equal. by apply Hok.
    - split; [|exact Hroot].
      intros q Hq. apply Hspec in Hq. destruct Hq as [Hqp Hqd].
      pose proof (prime_ge_2 _ Hqp).
      exists (g ^ ((p - 1) / q) mod p). split; [|exact (Hpass q Hqp Hqd)].
      apply modPow_value; [apply Z.div_pos; lia | lia]. }
  (* the last resort is reached for p = 3 only, where 2 is a generator *)
  assert (Hlast : (forall g, 2 <= g <= p - 2 -> ~ passes_test p g) ->
                  1 <= 2 < p /\ passes_test p 2).
  { intros Hnone. split; [lia|].
    destruct (Z_lt_le_dec p 5) as [Hlt|Hge].
    - assert (p = 3) as ->.
      { destruct (Z.eq_dec p 4) as [->|]; [|lia].
        destruct (prime_divisors _ Hp 2) as [H|[H|[H|H]]]; try lia.
        exists 2. reflexivity. }
      intros q Hqp Hqd. pose proof (prime_ge_2 _ Hqp).
      apply Z.divide_pos_le in Hqd; [|lia].
      assert (q = 2) as -> by lia. discriminate.
    - destruct (generator_in_range Hp Hp3 Hge) as (g & Hg & Hpass).
      exfalso. exact (Hnone g Hg Hpass). }
  pose proof (@attempt_loop_spec p Hp3 factors Hspec 64 fuel rnd pos) as Hatt.
  destruct (@linear_search_spec p Hp3 factors Hspec (Z.to_nat p) 2
              ltac:(lia)) as (found & Hlin & Hfound).
  unfold findGenerator. rewrite Hfs. cbn [bind].
  destruct (attempt_loop 64 fuel p (p - 1) factors rnd pos)
    as [[[g|] pos1]| |]; cbn [bind].
  - (* a random candidate passed *)
    split; [|split; [discriminate | by intros _; exists g, pos1]].
    intros g' pos' [= <- _]. destruct Hatt. by apply Hgood.
  - (* the ascending search *)
    rewrite Hlin. cbn [bind]. destruct found as [g|].
    + split; [|split; [discriminate | by intros _; exists g, pos1]].
      intros g' pos' [= <- _]. destruct Hfound. apply Hgood; [lia | assumption].
    + split; [|split; [discriminate | by intros _; exists 2, pos1]].
      intros g' pos' [= <- _]. destruct (Hlast Hfound). by apply Hgood.
  - contradiction.
  - split; [discriminate|]. split; [discriminate|].
    intros Hlive. destruct Hatt as [pos0 Hout].
    destruct (Hlive pos0) as (v & pos1 & Hret). congruence.
Qed.

Lemma findGenerator_order_witness :
  findGenerator 1 23 zeros 0 = Ret (5, 64%nat)
  /\ primitive_root 23 5
  /\ primeFactorsDistinct 22 = Ret [:: 2; 11]
  /\ (forall pos, exists g pos', findGenerator 1 23 zeros pos = Ret (g, pos')).
Proof.
  assert (H23 : Znumtheory.prime 23) by (apply divisor_free_prime; by vm_compute).
  assert (E : findGenerator 1 23 zeros 0 = Ret (5, 64%nat)) by (by vm_compute).
  split; [exact E|].
  destruct (@findGenerator_order 23 H23 ltac:(lia) 1%nat zeros 0%nat)
    as (factors & Hfs & _ & Hret & _).
  split; [|split; [by vm_compute|]].
  - destruct (Hret 5 64%nat E) as (_ & _ & _ & Hroot). exact Hroot.
  - intros pos.
    destruct (@findGenerator_order 23 H23 ltac:(lia) 1%nat zeros pos)
      as (factors' & _ & _ & _ & _ & Hlive).
    apply Hlive. intros pos0. exists 2, (pos0 + 1)%nat. reflexivity.
Defined.
